(** * The exchange-rate singleton of [creational/singleton-pattern.py]

    A shallow embedding of [ExchangeRateManager] (a lazily created,
    process-wide rate table that refreshes itself when it is older than
    one hour) and of its consumer [CurrencyConverter].

    Conventions of the embedding.
    - Python floats are idealised as rationals ([Q]); equalities between
      computed rates are stated up to [Qeq], i.e. in exact arithmetic.
      [Binary64] holds the arithmetic of the refresh as binary64 computes
      it, to show where rounding departs from the exact values.
    - The dictionary [_rates] is a [gmap string Q].
    - The two sources of non-determinism, [time.time()] and
      [random.uniform], are inputs of each call, gathered in an [oracle].
    - A Python exception ([IndexError], [KeyError], [ZeroDivisionError])
      is the result [None].
    - Threads are modelled by program counters over the shared state and
      a schedule that picks which thread takes the next atomic step. *)

From Stdlib Require Import Ascii QArith Lqa.
From Stdlib Require PrimFloat SpecFloat FloatOps.
From stdpp Require Import gmap strings list fin_maps.

Open Scope Q_scope.

(** ** Python primitives used by the source *)

Module Py.

(** [s.split(sep)] for a one-character separator: never the empty list. *)
Fixpoint split (sep : ascii) (s : string) : list string :=
  match s with
  | EmptyString => [EmptyString]
  | String c s' =>
      if Ascii.eqb c sep then EmptyString :: split sep s'
      else match split sep s' with
           | [] => [String c EmptyString]
           | hd :: tl => String c hd :: tl
           end
  end.

(** [x / y] on numbers: raises [ZeroDivisionError] when [y] is zero. *)
Definition truediv (x y : Q) : option Q :=
  if Qeq_bool y 0 then None else Some (x / y).

(** [x > y] *)
Definition gt (x y : Q) : bool := negb (Qle_bool x y).

(** [d.get(k, dflt)] *)
Definition get (d : gmap string Q) (k : string) (dflt : Q) : Q :=
  default dflt (d !! k).

(** [str.upper] on ASCII letters. *)
Definition upper_char (c : ascii) : ascii :=
  let n := nat_of_ascii c in
  if ((97 <=? n)%nat && (n <=? 122)%nat)%bool then ascii_of_nat (n - 32) else c.

Fixpoint upper (s : string) : string :=
  match s with
  | EmptyString => EmptyString
  | String c s' => String (upper_char c) (upper s')
  end.

End Py.

(** ** The same arithmetic in binary64 *)

Module Binary64.
Import PrimFloat SpecFloat FloatOps.
#[local] Set Warnings "-inexact-float".

(** The rational a finite float stands for; no value for infinities and
    NaN. *)
Definition exact (x : float) : option Q :=
  match Prim2SF x with
  | S754_zero _ => Some 0
  | S754_finite s m e =>
      Some (inject_Z (if s then Z.neg m else Z.pos m) * 2 ^ e)
  | _ => None
  end.

(** [rate * (1 + fluctuation)] as the interpreter computes it. *)
Definition forward_rate (rate fluctuation : float) : float :=
  (rate * (1 + fluctuation))%float.

(** [1 / self._rates[pair]] *)
Definition reverse_rate (v : float) : float := (1 / v)%float.

(** The base rate of EUR_GBP and the lower bound of the draw, as written
    in the source. *)
Definition EUR_GBP : float := 0.88%float.
Definition lowest : float := (-0.02)%float.

(** The rationals that are binary64 values. *)
Definition representable (x : Q) : Prop :=
  ∃ m e : Z, (Z.abs m < 2 ^ 53)%Z ∧ (-1074 <= e <= 971)%Z
             ∧ x == inject_Z m * 2 ^ e.

End Binary64.

(** ** The manager object *)

Record ExchangeRateManager := {
  _rates : gmap string Q;
  _last_updated : Q;
  _update_interval : Q
}.

(** [ExchangeRateManager.__init__] *)
Definition __init__ : ExchangeRateManager :=
  {| _rates := ∅; _last_updated := 0; _update_interval := 3600 |}.

Definition set_rate (k : string) (v : Q) (s : ExchangeRateManager)
  : ExchangeRateManager :=
  {| _rates := <[k := v]> (_rates s);
     _last_updated := _last_updated s;
     _update_interval := _update_interval s |}.

Definition set_last_updated (t : Q) (s : ExchangeRateManager)
  : ExchangeRateManager :=
  {| _rates := _rates s;
     _last_updated := t;
     _update_interval := _update_interval s |}.

Definition set_rates (m : gmap string Q) (s : ExchangeRateManager)
  : ExchangeRateManager :=
  {| _rates := m;
     _last_updated := _last_updated s;
     _update_interval := _update_interval s |}.

(** The process: the one manager object and what has been printed. *)
Record world := {
  mgr : ExchangeRateManager;
  stdout : list string
}.

Definition initial_world : world := {| mgr := __init__; stdout := [] |}.

(** What the clock and the random generator answer during one call of
    [get_rate]. *)
Record oracle := {
  time_check : Q;       (* time.time() in _update_rates_if_needed *)
  time_stamp : Q;       (* time.time() at the end of _update_rates *)
  uniform : nat → Q     (* i-th random.uniform(-0.02, 0.02) of the refresh *)
}.

(** The contract of [random.uniform(-0.02, 0.02)]. *)
Definition in_range (u : nat → Q) : Prop :=
  ∀ i, -0.02 <= u i ∧ u i <= 0.02.

(** ** The refresh *)

Definition base_rates : list (string * Q) :=
  [ ("USD_EUR", 0.85); ("USD_GBP", 0.75); ("USD_JPY", 110.0);
    ("EUR_GBP", 0.88); ("EUR_JPY", 129.5); ("GBP_JPY", 146.7) ]%string.

Definition updating_line : string := "Updating exchange rates...".

(** The f-string [f"{a}_{b}"]. *)
Definition pair_key (a b : string) : string := a +:+ "_" +:+ b.

(** [f"{pair.split('_')[1]}_{pair.split('_')[0]}"] *)
Definition reverse_pair (pair : string) : option string :=
  let parts := Py.split "_"%char pair in
  a ← parts !! 1%nat;
  b ← parts !! 0%nat;
  Some (pair_key a b).

(** [self._rates[pair] = rate * (1 + fluctuation)] *)
Definition store_forward (o : oracle) (i : nat) (pair : string) (rate : Q)
    (s : ExchangeRateManager) : ExchangeRateManager :=
  let fluctuation := uniform o i in
  set_rate pair (rate * (1 + fluctuation)) s.

(** [self._rates[reverse_pair] = 1 / self._rates[pair]] *)
Definition store_reverse (pair : string) (s : ExchangeRateManager)
  : option ExchangeRateManager :=
  rp ← reverse_pair pair;
  v ← _rates s !! pair;
  r ← Py.truediv 1 v;
  Some (set_rate rp r s).

Definition loop_body (o : oracle) (i : nat) (item : string * Q)
    (s : ExchangeRateManager) : option ExchangeRateManager :=
  store_reverse item.1 (store_forward o i item.1 item.2 s).

(** [for pair, rate in base_rates.items(): ...], [i] counting iterations. *)
Fixpoint for_items (o : oracle) (i : nat) (items : list (string * Q))
    (s : ExchangeRateManager) : option ExchangeRateManager :=
  match items with
  | [] => Some s
  | item :: rest => s' ← loop_body o i item s; for_items o (S i) rest s'
  end.

Definition _update_rates (o : oracle) (w : world) : option world :=
  let out := stdout w ++ [updating_line] in
  s' ← for_items o 0 base_rates (mgr w);
  Some {| mgr := set_last_updated (time_stamp o) s'; stdout := out |}.

(** The staleness test of [_update_rates_if_needed]. *)
Definition stale (current_time : Q) (s : ExchangeRateManager) : bool :=
  Py.gt (current_time - _last_updated s) (_update_interval s).

Definition _update_rates_if_needed (o : oracle) (w : world) : option world :=
  let current_time := time_check o in
  if stale current_time (mgr w) then _update_rates o w else Some w.

Definition get_rate (o : oracle) (w : world) (from_currency to_currency : string)
  : option (Q * world) :=
  w' ← _update_rates_if_needed o w;
  let key := pair_key from_currency to_currency in
  Some (Py.get (_rates (mgr w')) key 1.0, w').

(** [CurrencyConverter.convert] *)
Definition convert (o : oracle) (w : world) (amount : Q)
    (from_currency to_currency : string) : option (Q * world) :=
  '(rate, w') ← get_rate o w from_currency to_currency;
  Some (amount * rate, w').

(** Calls made one after the other, each with its own oracle. *)
Fixpoint get_rates (calls : list (oracle * (string * string))) (w : world)
  : option (list Q * world) :=
  match calls with
  | [] => Some ([], w)
  | (o, (a, b)) :: rest =>
      '(r, w1) ← get_rate o w a b;
      '(rs, w2) ← get_rates rest w1;
      Some (r :: rs, w2)
  end.

(** Number of refreshes so far: one line is printed per refresh. *)
Definition refresh_count (w : world) : nat := length (stdout w).

(** ** The table written by one complete refresh *)

(** The two writes of iteration [i], in the order they are made. *)
Definition writes_of (u : nat → Q) (i : nat) (item : string * Q)
  : list (string * Q) :=
  let v := item.2 * (1 + u i) in
  (item.1, v) ::
  match reverse_pair item.1 with
  | Some rp => [ (rp, 1 / v) ]
  | None => []
  end.

Fixpoint writes_from (u : nat → Q) (i : nat) (items : list (string * Q))
  : list (string * Q) :=
  match items with
  | [] => []
  | item :: rest => writes_of u i item ++ writes_from u (S i) rest
  end.

Definition writes (u : nat → Q) : list (string * Q) :=
  writes_from u 0 base_rates.

Definition write_all (l : list (string * Q)) (m : gmap string Q)
  : gmap string Q :=
  foldl (λ m kv, <[kv.1 := kv.2]> m) m l.

(** One generation of the table: every entry comes from the same draws. *)
Definition snapshot (u : nat → Q) : gmap string Q :=
  list_to_map (reverse (writes u)).

Definition stored_keys : list string := (writes (λ _, 0)).*1.

(** The currency codes that occur in [base_rates]. *)
Definition currencies : list string := ["USD"; "EUR"; "GBP"; "JPY"].

(** The table is empty (never refreshed) or one whole generation. *)
Definition single_generation (m : gmap string Q) : Prop :=
  m = ∅ ∨ ∃ u, in_range u ∧ m = snapshot u.

(** Every stored pair has its reciprocal, and the two rates multiply to 1. *)
Definition consistent (m : gmap string Q) : Prop :=
  ∀ a b r, m !! pair_key a b = Some r →
    ∃ r', m !! pair_key b a = Some r' ∧ r' == 1 / r ∧ r * r' == 1.

(** Worlds that calls of [get_rate] made one after the other can reach. *)
Inductive reachable : world → Prop :=
| reach_init : reachable initial_world
| reach_call o w a b r w' :
    reachable w → in_range (uniform o) →
    get_rate o w a b = Some (r, w') → reachable w'.

(** The worlds calls made one after the other can reach, each with the
    oracle of the last call that refreshed (none before the first
    refresh). *)
Inductive last_refresh : world → option oracle → Prop :=
| last_none : last_refresh initial_world None
| last_call o w g a b r w' :
    last_refresh w g → in_range (uniform o) →
    get_rate o w a b = Some (r, w') →
    last_refresh w' (if stale (time_check o) (mgr w) then Some o else g).

(** What the table and the time stamp are after a history whose last
    refresh was [g]. *)
Definition generation_of (g : option oracle) (w : world) : Prop :=
  match g with
  | None =>
      _rates (mgr w) = ∅ ∧ _last_updated (mgr w) = 0
      ∧ refresh_count w = 0%nat
  | Some o =>
      in_range (uniform o)
      ∧ _rates (mgr w) = snapshot (uniform o)
      ∧ _last_updated (mgr w) = time_stamp o
      ∧ consistent (_rates (mgr w))
  end.

(** What the loop body needs of an item in order not to raise. *)
Definition item_ok (item : string * Q) : Prop :=
  0 < item.2 ∧ is_Some (reverse_pair item.1).

(** The world a refresh leaves behind. *)
Definition refreshed (o : oracle) (w : world) : world :=
  {| mgr := {| _rates := snapshot (uniform o) ∪ _rates (mgr w);
               _last_updated := time_stamp o;
               _update_interval := _update_interval (mgr w) |};
     stdout := stdout w ++ [updating_line] |}.

(** The world [_update_rates_if_needed] leaves behind. *)
Definition after_check (o : oracle) (w : world) : world :=
  if stale (time_check o) (mgr w) then refreshed o w else w.

(** ** Threads calling [get_rate] on the shared manager *)

Module Threads.

(** Where a thread stands inside [get_rate]; each constructor is the
    atomic step it is about to take. *)
Inductive pc :=
| AtCheck                 (* current_time = time.time(); the test *)
| AtPrint                 (* print("Updating exchange rates...") *)
| AtForward (i : nat)     (* self._rates[pair] = rate * (1 + fluctuation) *)
| AtReverse (i : nat)     (* self._rates[reverse_pair] = 1 / self._rates[pair] *)
| AtStamp                 (* self._last_updated = time.time() *)
| AtLookup                (* return self._rates.get(key, 1.0) *)
| Returned (r : Q)
| Raised.

Record thread := {
  t_from : string;
  t_to : string;
  t_oracle : oracle;
  t_pc : pc
}.

Definition call (o : oracle) (a b : string) : thread :=
  {| t_from := a; t_to := b; t_oracle := o; t_pc := AtCheck |}.

Definition at_pc (p : pc) (t : thread) : thread :=
  {| t_from := t_from t; t_to := t_to t; t_oracle := t_oracle t; t_pc := p |}.

Definition with_mgr (s : ExchangeRateManager) (w : world) : world :=
  {| mgr := s; stdout := stdout w |}.

(** Head of the [for] loop: next item, or the statement after the loop. *)
Definition loop_head (i : nat) : pc :=
  match base_rates !! i with
  | Some _ => AtForward i
  | None => AtStamp
  end.

Definition step (t : thread) (w : world) : pc * world :=
  let o := t_oracle t in
  match t_pc t with
  | AtCheck =>
      (if stale (time_check o) (mgr w) then AtPrint else AtLookup, w)
  | AtPrint =>
      (loop_head 0, {| mgr := mgr w; stdout := stdout w ++ [updating_line] |})
  | AtForward i =>
      match base_rates !! i with
      | Some item =>
          (AtReverse i, with_mgr (store_forward o i item.1 item.2 (mgr w)) w)
      | None => (AtStamp, w)
      end
  | AtReverse i =>
      match base_rates !! i with
      | Some item =>
          match store_reverse item.1 (mgr w) with
          | Some s' => (loop_head (S i), with_mgr s' w)
          | None => (Raised, w)
          end
      | None => (AtStamp, w)
      end
  | AtStamp =>
      (AtLookup, with_mgr (set_last_updated (time_stamp o) (mgr w)) w)
  | AtLookup =>
      (Returned (Py.get (_rates (mgr w)) (pair_key (t_from t) (t_to t)) 1.0), w)
  | Returned r => (Returned r, w)
  | Raised => (Raised, w)
  end.

Record system := {
  shared : world;
  threads : list thread
}.

(** Thread [tid] takes one atomic step. *)
Definition sched_step (sys : system) (tid : nat) : system :=
  match threads sys !! tid with
  | None => sys
  | Some t =>
      let '(p, w) := step t (shared sys) in
      {| shared := w; threads := <[tid := at_pc p t]> (threads sys) |}
  end.

Definition run (sched : list nat) (sys : system) : system :=
  foldl sched_step sys sched.

Definition results (sys : system) : list Q :=
  omap (λ t, match t_pc t with Returned r => Some r | _ => None end)
       (threads sys).

Definition table (sys : system) : gmap string Q := _rates (mgr (shared sys)).

(** One thread and nobody else. *)
Definition alone (t : thread) (w : world) : system :=
  {| shared := w; threads := [t] |}.

End Threads.

(** ** The class attributes and [get_instance] *)

Module Singleton.

(** Objects are named by their address in [heap]. *)
Record class_state := {
  _instance : option nat;
  _lock : option nat;                  (* the thread holding cls._lock *)
  heap : list ExchangeRateManager
}.

Definition class_init : class_state :=
  {| _instance := None; _lock := None; heap := [] |}.

(** [cls()]: a new object, initialised by [__init__]. *)
Definition construct (c : class_state) : nat * class_state :=
  (length (heap c),
   {| _instance := _instance c; _lock := _lock c;
      heap := heap c ++ [__init__] |}).

Definition set_instance (r : nat) (c : class_state) : class_state :=
  {| _instance := Some r; _lock := _lock c; heap := heap c |}.

Definition set_lock (l : option nat) (c : class_state) : class_state :=
  {| _instance := _instance c; _lock := l; heap := heap c |}.

(** One call with no other thread running (the lock is free on entry
    and free again on exit). *)
Definition get_instance (c : class_state) : option nat * class_state :=
  match _instance c with
  | Some _ => (_instance c, c)
  | None =>
      let c' :=
        match _instance c with
        | Some _ => c
        | None => let '(r, c1) := construct c in set_instance r c1
        end in
      (_instance c', c')
  end.

Fixpoint get_instances (k : nat) (c : class_state)
  : list (option nat) * class_state :=
  match k with
  | O => ([], c)
  | S k' =>
      let '(r, c1) := get_instance c in
      let '(rs, c2) := get_instances k' c1 in
      (r :: rs, c2)
  end.

Inductive pc :=
| Check1                  (* if not cls._instance *)
| Acquire                 (* with cls._lock: waits while it is held *)
| Check2                  (* if not cls._instance, lock held *)
| Construct               (* cls() *)
| Assign (r : nat)        (* cls._instance = <the new object> *)
| Release                 (* leaving the with block *)
| Return                  (* return cls._instance *)
| Done (r : option nat).

Definition step (tid : nat) (p : pc) (c : class_state) : pc * class_state :=
  match p with
  | Check1 => (if _instance c is Some _ then Return else Acquire, c)
  | Acquire =>
      match _lock c with
      | None => (Check2, set_lock (Some tid) c)
      | Some _ => (Acquire, c)
      end
  | Check2 => (if _instance c is Some _ then Release else Construct, c)
  | Construct => let '(r, c') := construct c in (Assign r, c')
  | Assign r => (Release, set_instance r c)
  | Release => (Return, set_lock None c)
  | Return => (Done (_instance c), c)
  | Done r => (Done r, c)
  end.

Record system := {
  cls : class_state;
  threads : list pc
}.

Definition sched_step (sys : system) (tid : nat) : system :=
  match threads sys !! tid with
  | None => sys
  | Some p =>
      let '(p', c') := step tid p (cls sys) in
      {| cls := c'; threads := <[tid := p']> (threads sys) |}
  end.

Definition run (sched : list nat) (sys : system) : system :=
  foldl sched_step sys sched.

(** [n] threads, each about to call [get_instance], nothing built yet. *)
Definition spawn (n : nat) : system :=
  {| cls := class_init; threads := replicate n Check1 |}.

Definition results (sys : system) : list (option nat) :=
  omap (λ p, match p with Done r => Some r | _ => None end) (threads sys).

(** Between taking and releasing the lock. *)
Definition critical (p : pc) : bool :=
  match p with
  | Check2 | Construct | Assign _ | Release => true
  | _ => false
  end.

(** What a thread at [p] may rely on. *)
Definition pc_ok (c : class_state) (tid : nat) (p : pc) : Prop :=
  match p with
  | Check1 | Acquire => True
  | Check2 => _lock c = Some tid
  | Construct => _lock c = Some tid ∧ _instance c = None ∧ heap c = []
  | Assign r =>
      _lock c = Some tid ∧ _instance c = None ∧ r = 0%nat
      ∧ length (heap c) = 1%nat
  | Release => _lock c = Some tid ∧ _instance c = Some 0%nat
  | Return => _instance c = Some 0%nat
  | Done r => r = Some 0%nat ∧ _instance c = Some 0%nat
  end.

(** The invariant of every interleaving: the slot is empty or holds the
    first object; an object that is built but not yet published belongs to
    the thread about to publish it; the lock holder is inside the
    critical section; every thread's local knowledge is right. *)
Record inv (sys : system) : Prop := {
  inv_slot :
    _instance (cls sys) = None
    ∨ (_instance (cls sys) = Some 0%nat ∧ length (heap (cls sys)) = 1%nat);
  inv_heap :
    _instance (cls sys) = None →
    heap (cls sys) = [] ∨ ∃ tid, threads sys !! tid = Some (Assign 0);
  inv_holder :
    ∀ tid, _lock (cls sys) = Some tid →
      ∃ p, threads sys !! tid = Some p ∧ critical p = true;
  inv_threads :
    ∀ tid p, threads sys !! tid = Some p → pc_ok (cls sys) tid p
}.

(** Number of steps a thread may still have to take. *)
Definition rank (p : pc) : nat :=
  match p with
  | Check1 => 7 | Acquire => 6 | Check2 => 5 | Construct => 4
  | Assign _ => 3 | Release => 2 | Return => 1 | Done _ => 0
  end.

(** Thread [tid] will not have to wait for the lock. *)
Definition lock_free_for (tid : nat) (c : class_state) : Prop :=
  _lock c = None ∨ _lock c = Some tid.

(** Schedules that let one thread, then every thread, run to its end. *)
Definition finish (tid : nat) : list nat := replicate 7 tid.

Definition finish_all (n : nat) : list nat := flat_map finish (seq 0 n).

(** From wherever a schedule has led, some continuation lets every
    thread return. *)
Definition drain (sys : system) : list nat :=
  match _lock (cls sys) with
  | Some tid => finish tid
  | None => []
  end ++ finish_all (length (threads sys)).

End Singleton.

(** ** [CurrencyConverter] on the shared manager *)

Module Converter.

(** The process: the class attributes with the managers built so far, and
    what has been printed. *)
Record process := {
  classes : Singleton.class_state;
  printed : list string
}.

Definition start : process :=
  {| classes := Singleton.class_init; printed := [] |}.

(** A converter holds the reference [get_instance] returned. *)
Record CurrencyConverter := {
  rate_manager : option nat
}.

(** [CurrencyConverter.__init__] *)
Definition new (p : process) : CurrencyConverter * process :=
  let '(r, c) := Singleton.get_instance (classes p) in
  ({| rate_manager := r |}, {| classes := c; printed := printed p |}).

Fixpoint new_many (k : nat) (p : process) : list CurrencyConverter * process :=
  match k with
  | O => ([], p)
  | S k' =>
      let '(c, p1) := new p in
      let '(cs, p2) := new_many k' p1 in
      (c :: cs, p2)
  end.

(** The manager at an address is replaced by its new state. *)
Definition store (addr : nat) (s : ExchangeRateManager)
    (c : Singleton.class_state) : Singleton.class_state :=
  {| Singleton._instance := Singleton._instance c;
     Singleton._lock := Singleton._lock c;
     Singleton.heap := <[addr := s]> (Singleton.heap c) |}.

(** [CurrencyConverter.convert]: [get_rate] runs on the object the
    converter refers to. *)
Definition convert (o : oracle) (self : CurrencyConverter) (amount : Q)
    (from_currency to_currency : string) (p : process) : option (Q * process) :=
  addr ← rate_manager self;
  s ← Singleton.heap (classes p) !! addr;
  '(rate, w) ← get_rate o {| mgr := s; stdout := printed p |}
                  from_currency to_currency;
  Some (amount * rate,
        {| classes := store addr (mgr w) (classes p); printed := stdout w |}).

(** The process holds exactly one manager, in the state [w]. *)
Definition holds (p : process) (w : world) : Prop :=
  classes p = {| Singleton._instance := Some 0%nat;
                 Singleton._lock := None;
                 Singleton.heap := [mgr w] |}
  ∧ printed p = stdout w.

End Converter.

(** ** Any number of threads calling [get_rate] *)

Module Callers.

(** One thread per call, each about to enter [get_rate]. *)
Definition spawn (w : world) (calls : list (oracle * (string * string)))
  : Threads.system :=
  {| Threads.shared := w;
     Threads.threads := (λ c, Threads.call c.1 c.2.1 c.2.2) <$> calls |}.

(** How often the schedule lets thread [tid] step. *)
Definition turns (tid : nat) (sched : list nat) : nat :=
  length (filter (λ i, i = tid) sched).

(** An upper bound on the steps a thread still has to take. *)
Definition rank (p : Threads.pc) : nat :=
  match p with
  | Threads.AtCheck => 16
  | Threads.AtPrint => 15
  | Threads.AtForward i => 3 + (11 - 2 * i)
  | Threads.AtReverse i => 3 + (10 - 2 * i)
  | Threads.AtStamp => 2
  | Threads.AtLookup => 1
  | Threads.Returned _ | Threads.Raised => 0
  end.

(** What holds of a thread standing at its program counter, given the
    table [m]: it has not raised, the pair it is about to invert is in the
    table, the rate it returned is positive. *)
Definition sound (m : gmap string Q) (t : Threads.thread) : Prop :=
  in_range (uniform (Threads.t_oracle t))
  ∧ match Threads.t_pc t with
    | Threads.Raised => False
    | Threads.AtReverse i =>
        ∃ item, base_rates !! i = Some item ∧ is_Some (m !! item.1)
    | Threads.Returned r => 0 < r
    | _ => True
    end.

Definition safe (sys : Threads.system) : Prop :=
  map_Forall (λ _ r, 0 < r) (Threads.table sys)
  ∧ Forall (sound (Threads.table sys)) (Threads.threads sys).

End Callers.

(** ** Rates within their band *)

Module Band.

(** Every entry of the table is the rate of a base pair within 2% of its
    base rate, or the reciprocal of such a rate. *)
Definition in_band (m : gmap string Q) : Prop :=
  ∀ k v, m !! k = Some v →
    ∃ i item, base_rates !! i = Some item ∧
      ((k = item.1 ∧ item.2 * 0.98 <= v ∧ v <= item.2 * 1.02)
       ∨ (reverse_pair item.1 = Some k
          ∧ 1 / (item.2 * 1.02) <= v ∧ v <= 1 / (item.2 * 0.98))).

End Band.

(** ** Concrete callers used in the examples *)

(** A first call at time 4000, and calls shortly after it. *)
Definition o0 : oracle :=
  {| time_check := 4000; time_stamp := 4001; uniform := λ _, 0 |}.

Definition o1 : oracle :=
  {| time_check := 4100; time_stamp := 4101; uniform := λ _, 0 |}.

Definition two_callers : Threads.system :=
  {| Threads.shared := initial_world;
     Threads.threads := [Threads.call o0 "USD" "EUR"; Threads.call o0 "USD" "EUR"] |}.

(** Both threads make their staleness check before either refreshes. *)
Definition both_check_first : list nat :=
  ([0; 1] ++ replicate 15 0 ++ replicate 15 1)%nat.

(** The table after a first refresh with no fluctuation. *)
Definition world_gen1 : world := refreshed o0 initial_world.

(** A reader whose check (time 7000) finds the table of time 4001 fresh
    and a writer whose check (time 8000) finds it stale. *)
Definition o_reader : oracle :=
  {| time_check := 7000; time_stamp := 7001; uniform := λ _, 0 |}.

Definition o_writer : oracle :=
  {| time_check := 8000; time_stamp := 8001; uniform := λ _, 0.02 |}.

Definition reader_and_writer : Threads.system :=
  {| Threads.shared := world_gen1;
     Threads.threads := [Threads.call o_reader "EUR" "USD";
                         Threads.call o_writer "USD" "EUR"] |}.

(** The reader passes its check, the writer starts a refresh and stores
    the new USD_EUR, and then the reader does its lookup. *)
Definition torn : Threads.system :=
  Threads.run [0; 1; 1; 1; 0]%nat reader_and_writer.

(** A first refresh stopped after its first store. *)
Definition half_pair : Threads.system :=
  Threads.run [0; 0; 0]%nat
    {| Threads.shared := initial_world;
       Threads.threads := [Threads.call o0 "USD" "EUR"] |}.

(** Two threads that both find a new manager stale; the second draws the
    highest fluctuation. *)
Definition o_up : oracle :=
  {| time_check := 4000; time_stamp := 4002; uniform := λ _, 0.02 |}.

Definition two_refreshers : Threads.system :=
  {| Threads.shared := initial_world;
     Threads.threads := [Threads.call o0 "USD" "EUR";
                         Threads.call o_up "USD" "EUR"] |}.

(** Both threads start a refresh; the second stores USD_EUR and EUR_USD,
    the first then stores its USD_EUR, and the second runs to its end. *)
Definition overtaken : list nat :=
  ([0; 0; 1; 1; 1; 1; 0] ++ replicate 12 1)%nat.

(** * Properties *)

(** ** Strings: splitting a key gives back the two codes *)

Section Strings.

Variable sep : ascii.

Lemma split_nonempty s : Py.split sep s ≠ [].
Proof.
  destruct s as [|c s]; simpl; [done|].
  destruct (Ascii.eqb c sep); [done|].
  by destruct (Py.split sep s).
Qed.

Lemma split_app a b :
  Py.split sep (a +:+ String sep b) = Py.split sep a ++ Py.split sep b.
Proof.
  induction a as [|c a IH]; simpl.
  - by rewrite Ascii.eqb_refl.
  - rewrite IH. destruct (Ascii.eqb c sep); [done|].
    pose proof (split_nonempty a) as Hne.
    by destruct (Py.split sep a).
Qed.

Lemma split_singleton s x : Py.split sep s = [x] → x = s.
Proof.
  revert x. induction s as [|c s IH]; simpl; intros x Hx.
  - congruence.
  - destruct (Ascii.eqb c sep).
    + injection Hx as _ Hx. by apply split_nonempty in Hx.
    + destruct (Py.split sep s) as [|hd tl] eqn:Hs; [by apply split_nonempty in Hs|].
      injection Hx as <- ->. by rewrite (IH hd).
Qed.

End Strings.

Lemma pair_key_split a b x y :
  Py.split "_" (pair_key a b) = [x; y] → a = x ∧ b = y.
Proof.
  unfold pair_key. change ("_" +:+ b)%string with (String "_" b).
  rewrite split_app. intros H.
  pose proof (split_nonempty "_" a) as Ha.
  pose proof (split_nonempty "_" b) as Hb.
  destruct (Py.split "_" a) as [|a1 [|a2 la]] eqn:Ea; [done| |].
  - destruct (Py.split "_" b) as [|b1 [|b2 lb]] eqn:Eb; [done| |done].
    simpl in H. injection H as -> ->.
    by rewrite (split_singleton _ _ _ Ea), (split_singleton _ _ _ Eb).
  - destruct (Py.split "_" b); [done|]. simpl in H.
    injection H as _ _ H. by destruct la.
Qed.

(** A key built from two codes is stored only if the two codes are the
    two halves of that stored key. *)
Lemma stored_key_codes a b :
  pair_key a b ∈ stored_keys →
  Py.split "_" (pair_key a b) = [a; b] ∧ pair_key b a ∈ stored_keys
  ∧ pair_key a b ≠ pair_key b a ∧ Py.upper a = a ∧ Py.upper b = b.
Proof.
  intros Hin.
  assert (∃ k, k ∈ stored_keys ∧ pair_key a b = k) as (k & Hk & Heq) by eauto.
  rewrite Heq. clear Hin.
  let ks := eval vm_compute in stored_keys in change stored_keys with ks in Hk.
  repeat (apply elem_of_cons in Hk as [->|Hk]);
    [ pose proof (f_equal (Py.split "_") Heq) as Hs;
      apply pair_key_split in Hs as [-> ->];
      (split; [reflexivity|split; [|done]]);
      vm_compute; set_solver .. | ].
  by apply elem_of_nil in Hk.
Qed.

(** ** Arithmetic of one refreshed rate *)

Lemma fluctuated_bounds (u : nat → Q) i rate :
  in_range u → 0 < rate →
  rate * 0.98 <= rate * (1 + u i) ∧ rate * (1 + u i) <= rate * 1.02
  ∧ 0 < rate * (1 + u i).
Proof.
  intros Hu Hr. destruct (Hu i) as [Hlo Hhi].
  assert (0 < 1 + u i) as Hpos by lra.
  repeat split.
  - apply Qmult_le_l; [done|lra].
  - apply Qmult_le_l; [done|lra].
  - by apply Qmult_lt_0_compat.
Qed.

Lemma truediv_nonzero x y : ¬ y == 0 → Py.truediv x y = Some (x / y).
Proof.
  intros Hy. unfold Py.truediv.
  destruct (Qeq_bool y 0) eqn:E; [|done].
  by apply Qeq_bool_iff in E.
Qed.

Lemma reciprocal_product v : 0 < v → v * (1 / v) == 1 ∧ v == 1 / (1 / v).
Proof. intros Hv. split; field; lra. Qed.

Lemma base_rates_positive i item :
  base_rates !! i = Some item → 0 < item.2 ∧ is_Some (reverse_pair item.1).
Proof.
  intros H.
  do 6 (destruct i as [|i]; [injection H as <-; split; [reflexivity|by eexists]|]).
  done.
Qed.

(** ** The loop of [_update_rates] writes [writes] in order *)

Lemma loop_body_writes o i item m s :
  item_ok item → in_range (uniform o) →
  loop_body o i item (set_rates m s)
  = Some (set_rates (write_all (writes_of (uniform o) i item) m) s).
Proof.
  intros [Hpos [rp Hrp]] Hu.
  unfold loop_body, store_reverse, store_forward, writes_of. simpl.
  rewrite Hrp. simpl. rewrite lookup_insert_eq. simpl.
  rewrite truediv_nonzero; [done|].
  pose proof (fluctuated_bounds _ i _ Hu Hpos). lra.
Qed.

Lemma for_items_writes o i items m s :
  Forall item_ok items → in_range (uniform o) →
  for_items o i items (set_rates m s)
  = Some (set_rates (write_all (writes_from (uniform o) i items) m) s).
Proof.
  intros Hok Hu. revert i m.
  induction Hok as [|item rest Hitem _ IH]; intros i m; [done|].
  cbn [for_items writes_from]. rewrite loop_body_writes by done.
  cbn [mbind option_bind]. rewrite IH. unfold write_all. by rewrite foldl_app.
Qed.

Lemma write_all_union l m : write_all l m = list_to_map (reverse l) ∪ m.
Proof.
  revert m. induction l as [|[k v] l IH]; intros m.
  - simpl. by rewrite (left_id_L ∅ (∪)).
  - change (write_all ((k, v) :: l) m) with (write_all l (<[k:=v]> m)).
    rewrite IH.
    rewrite reverse_cons, list_to_map_app. simpl.
    rewrite <-(assoc_L (∪)). f_equal.
    by rewrite insert_union_singleton_l, insert_empty.
Qed.

Lemma base_rates_ok : Forall item_ok base_rates.
Proof.
  apply Forall_lookup. intros i item H. by apply base_rates_positive in H.
Qed.

Lemma update_rates_result o w :
  in_range (uniform o) →
  _update_rates o w
  = Some {| mgr := {| _rates := snapshot (uniform o) ∪ _rates (mgr w);
                      _last_updated := time_stamp o;
                      _update_interval := _update_interval (mgr w) |};
            stdout := stdout w ++ [updating_line] |}.
Proof.
  intros Hu. unfold _update_rates.
  replace (mgr w) with (set_rates (_rates (mgr w)) (mgr w)) at 1
    by by destruct (mgr w).
  rewrite for_items_writes by (done || apply base_rates_ok).
  cbn [mbind option_bind]. by rewrite write_all_union.
Qed.

(** ** Lookups in one generation of the table *)

Lemma elem_of_writes_from u k r i items :
  (k, r) ∈ writes_from u i items ↔
  ∃ j item, items !! j = Some item ∧
    ((k = item.1 ∧ r = item.2 * (1 + u (i + j)%nat))
     ∨ (reverse_pair item.1 = Some k ∧ r = 1 / (item.2 * (1 + u (i + j)%nat)))).
Proof.
  revert i. induction items as [|item rest IH]; intros i; cbn [writes_from].
  - split; [by intros ?%elem_of_nil|by intros (j & ? & ? & _)].
  - rewrite elem_of_app, IH. unfold writes_of. split.
    + intros [H|(j & it & Hj & H)].
      * exists 0%nat, item. rewrite Nat.add_0_r. split; [done|].
        apply elem_of_cons in H as [[= -> ->]|H]; [by left|].
        destruct (reverse_pair item.1) as [rp|]; [|by apply elem_of_nil in H].
        apply list_elem_of_singleton in H as [= -> ->]. by right.
      * exists (S j), it. by rewrite <-Nat.add_succ_comm.
    + intros ([|j] & it & Hj & H).
      * left. injection Hj as ->. rewrite Nat.add_0_r in H.
        destruct H as [[-> ->]|[-> ->]]; [apply list_elem_of_here|].
        apply list_elem_of_further, list_elem_of_here.
      * right. exists j, it. by rewrite Nat.add_succ_comm.
Qed.

Lemma elem_of_writes u k r :
  (k, r) ∈ writes u ↔
  ∃ i item, base_rates !! i = Some item ∧
    ((k = item.1 ∧ r = item.2 * (1 + u i))
     ∨ (reverse_pair item.1 = Some k ∧ r = 1 / (item.2 * (1 + u i)))).
Proof. apply elem_of_writes_from. Qed.

Lemma writes_keys u : (writes u).*1 = stored_keys.
Proof. reflexivity. Qed.

Lemma stored_keys_NoDup : NoDup stored_keys.
Proof. apply (bool_decide_unpack _). by vm_compute. Qed.

Lemma snapshot_lookup u k r : snapshot u !! k = Some r ↔ (k, r) ∈ writes u.
Proof.
  unfold snapshot. rewrite <-elem_of_list_to_map, elem_of_reverse; [done|].
  rewrite fmap_reverse, writes_keys, reverse_Permutation.
  apply stored_keys_NoDup.
Qed.

Lemma snapshot_stored u k : k ∈ stored_keys ↔ is_Some (snapshot u !! k).
Proof.
  rewrite <-(writes_keys u), list_elem_of_fmap. split.
  - intros ([k' r] & -> & H). exists r. by apply snapshot_lookup.
  - intros [r H]. exists (k, r). by rewrite <-snapshot_lookup.
Qed.

Lemma snapshot_absent u k : k ∉ stored_keys → snapshot u !! k = None.
Proof. rewrite snapshot_stored, eq_None_not_Some. done. Qed.

Lemma snapshot_forward u i item :
  base_rates !! i = Some item →
  snapshot u !! item.1 = Some (item.2 * (1 + u i)).
Proof. intros H. apply snapshot_lookup, elem_of_writes. eauto 10. Qed.

(** A later generation replaces an earlier one entirely. *)
Lemma snapshot_absorb u m : single_generation m → snapshot u ∪ m = snapshot u.
Proof.
  intros [->|(u0 & _ & ->)]; [by rewrite (right_id_L ∅ (∪))|].
  apply map_eq. intros k. destruct (decide (k ∈ stored_keys)) as [Hk|Hk].
  - apply (snapshot_stored u) in Hk as [r Hr]. rewrite Hr.
    by apply lookup_union_Some_l.
  - rewrite lookup_union_r by by apply snapshot_absent.
    by rewrite !snapshot_absent.
Qed.

(** ** The two codes of a base pair *)

Lemma reverse_pair_codes x y :
  Py.split "_" (pair_key x y) = [x; y] →
  reverse_pair (pair_key x y) = Some (pair_key y x).
Proof. unfold reverse_pair. by intros ->. Qed.

Lemma base_item_codes i item :
  base_rates !! i = Some item →
  ∃ x y, item.1 = pair_key x y
    ∧ Py.split "_" (pair_key x y) = [x; y]
    ∧ Py.split "_" (pair_key y x) = [y; x].
Proof.
  intros H.
  do 6 (destruct i as [|i];
        [injection H as <-; cbn [fst];
         match goal with
         | |- ∃ x y, ?k = _ ∧ _ =>
             let parts := eval vm_compute in (Py.split "_" k) in
             match parts with [?x; ?y] => by exists x, y end
         end|]).
  done.
Qed.

Lemma snapshot_consistent u : in_range u → consistent (snapshot u).
Proof.
  intros Hu a b r H.
  apply snapshot_lookup, elem_of_writes in H as (i & item & Hi & H).
  destruct (base_rates_positive _ _ Hi) as [Hpos _].
  destruct (fluctuated_bounds _ i _ Hu Hpos) as (_ & _ & Hv).
  destruct (reciprocal_product _ Hv) as [Hprod Hinv].
  destruct (base_item_codes _ _ Hi) as (x & y & Hitem & Hxy & Hyx).
  destruct H as [[Hk ->]|[Hk ->]].
  - rewrite Hitem in Hk. pose proof (f_equal (Py.split "_") Hk) as Hs.
    rewrite Hxy in Hs. apply pair_key_split in Hs as [-> ->].
    exists (1 / (item.2 * (1 + u i))). split; [|done].
    apply snapshot_lookup, elem_of_writes. exists i, item. split; [done|].
    right. by rewrite Hitem, reverse_pair_codes.
  - rewrite Hitem, reverse_pair_codes in Hk by done. injection Hk as Hk.
    pose proof (f_equal (Py.split "_") Hk) as Hs.
    rewrite Hyx in Hs. symmetry in Hs. apply pair_key_split in Hs as [-> ->].
    exists (item.2 * (1 + u i)). split; [|split].
    + rewrite <-Hitem. by apply snapshot_forward.
    + done.
    + by rewrite Qmult_comm.
Qed.

(** ** What one call does to the world *)

Lemma update_rates_if_needed_result o w :
  in_range (uniform o) → _update_rates_if_needed o w = Some (after_check o w).
Proof.
  intros Hu. unfold _update_rates_if_needed, after_check.
  destruct (stale _ _); [|done]. by apply update_rates_result.
Qed.

Lemma get_rate_result o w a b :
  in_range (uniform o) →
  get_rate o w a b
  = Some (Py.get (_rates (mgr (after_check o w))) (pair_key a b) 1.0,
          after_check o w).
Proof.
  intros Hu. unfold get_rate. by rewrite update_rates_if_needed_result.
Qed.

Lemma refresh_count_refreshed o w :
  refresh_count (refreshed o w) = S (refresh_count w).
Proof.
  unfold refresh_count, refreshed. cbn [stdout]. rewrite length_app. simpl. lia.
Qed.

Lemma refreshed_rates o w :
  single_generation (_rates (mgr w)) →
  _rates (mgr (refreshed o w)) = snapshot (uniform o).
Proof. intros H. by apply snapshot_absorb. Qed.

Lemma after_check_single_generation o w :
  in_range (uniform o) → single_generation (_rates (mgr w)) →
  single_generation (_rates (mgr (after_check o w))).
Proof.
  intros Hu Hw. unfold after_check. destruct (stale _ _); [|done].
  rewrite refreshed_rates by done. right. eauto.
Qed.

Lemma reachable_single_generation w :
  reachable w → single_generation (_rates (mgr w)).
Proof.
  induction 1 as [|o w a b r w' _ IH Hu Hcall]; [by left|].
  rewrite get_rate_result in Hcall by done. injection Hcall as _ <-.
  by apply after_check_single_generation.
Qed.

Lemma stale_spec t s :
  stale t s = true ↔ _update_interval s < t - _last_updated s.
Proof.
  unfold stale, Py.gt. rewrite negb_true_iff.
  rewrite <-not_true_iff_false, Qle_bool_iff. split; [apply Qnot_le_lt|apply Qlt_not_le].
Qed.

Lemma fresh_spec t s :
  stale t s = false ↔ t - _last_updated s <= _update_interval s.
Proof.
  unfold stale, Py.gt. by rewrite negb_false_iff, Qle_bool_iff.
Qed.

Lemma single_generation_absent m a b :
  single_generation m → pair_key a b ∉ stored_keys → m !! pair_key a b = None.
Proof.
  intros [->|(u & _ & ->)] Hk; [done|]. by apply snapshot_absent.
Qed.

Lemma table_reciprocal m a b :
  single_generation m →
  Py.get m (pair_key a b) 1.0 * Py.get m (pair_key b a) 1.0 == 1.
Proof.
  intros Hm. unfold Py.get.
  assert (consistent m) as Hc.
  { destruct Hm as [->|(u & Hu & ->)]; [by intros ???|by apply snapshot_consistent]. }
  destruct (m !! pair_key a b) as [r|] eqn:Hab.
  - destruct (Hc _ _ _ Hab) as (r' & -> & _ & Hprod). done.
  - destruct (m !! pair_key b a) as [r|] eqn:Hba; [|done].
    destruct (Hc _ _ _ Hba) as (r' & Hab' & _). congruence.
Qed.

Lemma get_rates_fresh calls w :
  Forall (λ c, stale (time_check c.1) (mgr w) = false) calls →
  ∃ rs, get_rates calls w = Some (rs, w).
Proof.
  induction 1 as [|[o [a b]] rest Hfresh _ [rs IH]]; [by exists []|].
  cbn [get_rates]. unfold get_rate, _update_rates_if_needed.
  simpl in Hfresh. rewrite Hfresh. simpl. rewrite IH. simpl. eauto.
Qed.

Lemma get_rates_length calls w rs w' :
  get_rates calls w = Some (rs, w') → length rs = length calls.
Proof.
  revert w rs. induction calls as [|[o [a b]] rest IH]; intros w rs H.
  - simpl in H. by injection H as <- _.
  - cbn [get_rates] in H.
    destruct (get_rate o w a b) as [[r1 w1]|]; [|done]. simpl in H.
    destruct (get_rates rest w1) as [[rs' w2]|] eqn:E; [|done]. simpl in H.
    injection H as <- <-. simpl. f_equal. by eapply IH.
Qed.

Lemma o0_in_range : in_range (uniform o0).
Proof. intros i. simpl. lra. Qed.

(** ** The claims about one refresh *)

(** C4, as the code has it. After a refresh that no other call overlaps
    (calls made one after the other), every stored pair (A,B) with rate r
    has its reciprocal pair (B,A) stored with rate 1/r, so the two rates
    multiply to 1 in exact arithmetic. *)
Theorem refresh_reciprocal_consistency o w :
  in_range (uniform o) → reachable w →
  ∃ w', _update_rates o w = Some w' ∧
    ∀ a b r, _rates (mgr w') !! pair_key a b = Some r →
      ∃ r', _rates (mgr w') !! pair_key b a = Some r'
            ∧ r' == 1 / r ∧ r * r' == 1.
Proof.
  intros Hu Hw. eexists. split; [by apply update_rates_result|].
  cbn [mgr _rates].
  rewrite snapshot_absorb by by apply reachable_single_generation.
  by apply snapshot_consistent.
Qed.

Lemma refresh_reciprocal_consistency_witness :
  ∃ w', _update_rates o0 initial_world = Some w' ∧
    ∀ a b r, _rates (mgr w') !! pair_key a b = Some r →
      ∃ r', _rates (mgr w') !! pair_key b a = Some r'
            ∧ r' == 1 / r ∧ r * r' == 1.
Proof.
  apply (refresh_reciprocal_consistency o0 initial_world).
  - apply o0_in_range.
  - apply reach_init.
Defined.

(** C5, as the code has it. A refresh stores, for every pair of the base
    set, the base rate times (1 + fluctuation); in exact arithmetic (the
    rounding of the binary64 sum and product set aside) the stored forward
    rate is within 2% of the base rate for every fluctuation in
    [-0.02, 0.02], and a call on a stale table (such as the first one)
    returns that rate. *)
Theorem refresh_rate_bound o w i item :
  in_range (uniform o) → base_rates !! i = Some item →
  ∃ w' v, _update_rates o w = Some w'
    ∧ v = item.2 * (1 + uniform o i)
    ∧ _rates (mgr w') !! item.1 = Some v
    ∧ item.2 * 0.98 <= v ∧ v <= item.2 * 1.02
    ∧ ∀ a b, pair_key a b = item.1 → stale (time_check o) (mgr w) = true →
        get_rate o w a b = Some (v, w').
Proof.
  intros Hu Hi. eexists _, _.
  split; [by apply update_rates_result|]. split; [done|].
  assert ((snapshot (uniform o) ∪ _rates (mgr w)) !! item.1
          = Some (item.2 * (1 + uniform o i))) as Hv.
  { apply lookup_union_Some_l. by apply snapshot_forward. }
  destruct (base_rates_positive _ _ Hi) as [Hpos _].
  destruct (fluctuated_bounds _ i _ Hu Hpos) as (Hlo & Hhi & _).
  do 3 (split; [done|]). intros a b Hk Hstale.
  rewrite get_rate_result by done. unfold after_check. rewrite Hstale.
  unfold Py.get, refreshed. cbn [mgr _rates]. by rewrite Hk, Hv.
Qed.

Lemma refresh_rate_bound_witness :
  ∃ w' v, _update_rates o0 initial_world = Some w'
    ∧ v = 0.85 * (1 + 0)
    ∧ _rates (mgr w') !! "USD_EUR" = Some v
    ∧ 0.85 * 0.98 <= v ∧ v <= 0.85 * 1.02
    ∧ get_rate o0 initial_world "USD" "EUR" = Some (v, w').
Proof.
  destruct (refresh_rate_bound o0 initial_world 0 ("USD_EUR", 0.85)
              o0_in_range eq_refl)
    as (w' & v & Hupd & Hv & Hstored & Hlo & Hhi & Hcall).
  exists w', v. do 5 (split; [assumption|]).
  apply (Hcall "USD" "EUR"); reflexivity.
Defined.

(** C5, as the spec words it, fails in binary64: for EUR_GBP and the
    fluctuation next above -0.02, which lies in [-0.02, 0.02], the value
    that [rate * (1 + fluctuation)] stores is below 98% of the base rate,
    by rounding. *)
Lemma rounded_rate_leaves_band :
  ∃ u r v,
    Binary64.exact (PrimFloat.next_up Binary64.lowest) = Some u
    ∧ -0.02 <= u ∧ u <= 0.02
    ∧ Binary64.exact Binary64.EUR_GBP = Some r
    ∧ Binary64.exact
        (Binary64.forward_rate Binary64.EUR_GBP
           (PrimFloat.next_up Binary64.lowest)) = Some v
    ∧ v < r * 0.98 ∧ v < 0.88 * 0.98.
Proof.
  eexists _, _, _. split; [vm_compute; reflexivity|].
  split; [vm_compute; discriminate|]. split; [vm_compute; discriminate|].
  split; [vm_compute; reflexivity|]. split; [vm_compute; reflexivity|].
  split; vm_compute; reflexivity.
Qed.

(** The reciprocal stored next to such a rate is above the reciprocal of
    98% of the base rate, and the two stored values do not multiply to 1. *)
Lemma rounded_reciprocal_leaves_band :
  ∃ r v v',
    Binary64.exact Binary64.EUR_GBP = Some r
    ∧ Binary64.exact
        (Binary64.forward_rate Binary64.EUR_GBP
           (PrimFloat.next_up Binary64.lowest)) = Some v
    ∧ Binary64.exact
        (Binary64.reverse_rate
           (Binary64.forward_rate Binary64.EUR_GBP
              (PrimFloat.next_up Binary64.lowest))) = Some v'
    ∧ 1 / (r * 0.98) < v' ∧ ¬ v * v' == 1.
Proof.
  eexists _, _, _. do 3 (split; [vm_compute; reflexivity|]).
  split; [vm_compute; reflexivity|]. vm_compute. discriminate.
Qed.

(** ** The claims about [get_rate] *)

(** C6. Right after a successful [get_rate], the time last read from the
    clock minus [_last_updated] is at most [_update_interval]: either the
    table was fresh and nothing changed, or a refresh ran and stamped the
    table with the current time. *)
Theorem staleness_bound o w a b :
  in_range (uniform o) → 0 <= _update_interval (mgr w) →
  ∃ r w', get_rate o w a b = Some (r, w') ∧
    let refresh := stale (time_check o) (mgr w) in
    let now := if refresh then time_stamp o else time_check o in
    now - _last_updated (mgr w') <= _update_interval (mgr w')
    ∧ ((refresh = false ∧ w' = w
        ∧ time_check o - _last_updated (mgr w) <= _update_interval (mgr w))
       ∨ (refresh = true ∧ _last_updated (mgr w') = time_stamp o
          ∧ refresh_count w' = S (refresh_count w))).
Proof.
  intros Hu Hint. eexists _, _. split; [by apply get_rate_result|].
  unfold after_check. destruct (stale _ _) eqn:Hs; cbn zeta.
  - cbn [refreshed mgr _last_updated _update_interval]. split; [lra|].
    right. repeat split. apply refresh_count_refreshed.
  - apply fresh_spec in Hs. split; [done|]. by left.
Qed.

Lemma staleness_bound_witness :
  ∃ r w', get_rate o0 initial_world "USD" "EUR" = Some (r, w') ∧
    let refresh := stale (time_check o0) (mgr initial_world) in
    let now := if refresh then time_stamp o0 else time_check o0 in
    now - _last_updated (mgr w') <= _update_interval (mgr w')
    ∧ ((refresh = false ∧ w' = initial_world
        ∧ time_check o0 - _last_updated (mgr initial_world)
          <= _update_interval (mgr initial_world))
       ∨ (refresh = true ∧ _last_updated (mgr w') = time_stamp o0
          ∧ refresh_count w' = S (refresh_count initial_world))).
Proof.
  apply (staleness_bound o0 initial_world "USD" "EUR").
  - apply o0_in_range.
  - simpl. lra.
Defined.

(** C7, as the code has it. For every code X, [get_rate(X, X)] returns
    1.0, also before any refresh; it takes the ordinary path: the
    staleness check runs (and refreshes a stale table) and the key X_X is
    looked up, which no refresh ever stores. *)
Theorem identity_conversion o w X :
  in_range (uniform o) → reachable w →
  ∃ w', _update_rates_if_needed o w = Some w'
    ∧ get_rate o w X X = Some (1.0, w')
    ∧ _rates (mgr w') !! pair_key X X = None
    ∧ (if stale (time_check o) (mgr w)
       then refresh_count w' = S (refresh_count w) else w' = w).
Proof.
  intros Hu Hw. exists (after_check o w).
  assert (_rates (mgr (after_check o w)) !! pair_key X X = None) as Hnone.
  { apply single_generation_absent.
    - by apply after_check_single_generation, reachable_single_generation.
    - intros Hin. apply stored_key_codes in Hin as (_ & _ & Hne & _). done. }
  split; [by apply update_rates_if_needed_result|].
  rewrite get_rate_result by done. unfold Py.get. rewrite Hnone.
  repeat split. unfold after_check. destruct (stale _ _); [|done].
  apply refresh_count_refreshed.
Qed.

Lemma identity_conversion_witness :
  ∃ w', _update_rates_if_needed o0 initial_world = Some w'
    ∧ get_rate o0 initial_world "USD" "USD" = Some (1.0, w')
    ∧ _rates (mgr w') !! pair_key "USD" "USD" = None
    ∧ (if stale (time_check o0) (mgr initial_world)
       then refresh_count w' = S (refresh_count initial_world)
       else w' = initial_world).
Proof.
  apply (identity_conversion o0 initial_world "USD").
  - apply o0_in_range.
  - apply reach_init.
Defined.

(** C7, as the spec words it, fails: on a never-refreshed manager the call
    [get_rate("USD", "USD")] does run the refresh (one line is printed and
    the table is filled) before it returns 1.0. *)
Lemma same_code_call_refreshes :
  ∃ w', get_rate o0 initial_world "USD" "USD" = Some (1.0, w')
    ∧ refresh_count initial_world = 0%nat ∧ refresh_count w' = 1%nat
    ∧ _rates (mgr initial_world) = ∅
    ∧ _rates (mgr w') !! "USD_EUR" = Some 0.85
    ∧ get_rate o0 initial_world "USD" "USD" ≠ Some (1.0, initial_world).
Proof.
  eexists. split; [vm_compute; reflexivity|].
  do 4 (split; [vm_compute; reflexivity|]).
  vm_compute. discriminate.
Qed.

(** C8. Whatever pair is absent from the table after the refresh step,
    [get_rate] does not raise and returns the default 1.0; every call
    returns a rate. *)
Theorem unknown_pair_default o w a b :
  in_range (uniform o) →
  ∃ r w', _update_rates_if_needed o w = Some w'
    ∧ get_rate o w a b = Some (r, w')
    ∧ (_rates (mgr w') !! pair_key a b = None → r = 1.0).
Proof.
  intros Hu. eexists _, _.
  split; [by apply update_rates_if_needed_result|].
  split; [by apply get_rate_result|].
  unfold Py.get. by intros ->.
Qed.

Lemma unknown_pair_default_witness :
  ∃ r w', _update_rates_if_needed o0 initial_world = Some w'
    ∧ get_rate o0 initial_world "USD" "CHF" = Some (r, w')
    ∧ r = 1.0.
Proof.
  destruct (unknown_pair_default o0 initial_world "USD" "CHF" o0_in_range)
    as (r & w' & Hupd & Hget & Hdefault).
  exists r, w'. split; [done|]. split; [done|]. apply Hdefault.
  vm_compute in Hupd. injection Hupd as <-. reflexivity.
Defined.

(** C9, as the code has it. Codes are compared exactly as written: a call
    in which either code is not in upper case misses every stored entry
    and returns the default 1.0, whatever rate is stored for the
    upper-case spelling. *)
Theorem get_rate_case_sensitive o w a b :
  in_range (uniform o) → reachable w →
  Py.upper a ≠ a ∨ Py.upper b ≠ b →
  ∃ w', get_rate o w a b = Some (1.0, w').
Proof.
  intros Hu Hw Hcase. eexists. rewrite get_rate_result by done.
  unfold Py.get. rewrite single_generation_absent; [done| |].
  - by apply after_check_single_generation, reachable_single_generation.
  - intros Hin. apply stored_key_codes in Hin as (_ & _ & _ & Ha & Hb).
    by destruct Hcase.
Qed.

Lemma get_rate_case_sensitive_witness :
  ∃ w', get_rate o0 initial_world "usd" "eur" = Some (1.0, w').
Proof.
  apply (get_rate_case_sensitive o0 initial_world "usd" "eur").
  - apply o0_in_range.
  - apply reach_init.
  - left. vm_compute. discriminate.
Defined.

(** C9, as the spec words it, fails: on the same table the upper-case and
    the lower-case spelling of one pair get different rates. *)
Lemma lower_case_codes_differ :
  ∃ r1 r2 w', Py.upper "usd" = "USD" ∧ Py.upper "eur" = "EUR"
    ∧ get_rate o0 initial_world "USD" "EUR" = Some (r1, w')
    ∧ get_rate o0 initial_world "usd" "eur" = Some (r2, w')
    ∧ r1 == 0.85 ∧ r2 == 1 ∧ ¬ r1 == r2.
Proof.
  eexists _, _, _. split; [reflexivity|]. split; [reflexivity|].
  split; [vm_compute; reflexivity|]. split; [vm_compute; reflexivity|].
  repeat split; discriminate.
Qed.

(** C10. Within one generation of the table, for all codes a and b,
    stored or not, the rate of (a, b) times the rate of (b, a) is 1 in
    exact arithmetic. *)
Theorem reciprocal_product_all_pairs o1 o2 w a b :
  in_range (uniform o1) → reachable w →
  ∃ r1 w1, get_rate o1 w a b = Some (r1, w1) ∧
    (stale (time_check o2) (mgr w1) = false →
     ∃ r2, get_rate o2 w1 b a = Some (r2, w1) ∧ r1 * r2 == 1).
Proof.
  intros Hu Hw. eexists _, _. split; [by apply get_rate_result|].
  intros Hfresh. eexists.
  unfold get_rate at 1, _update_rates_if_needed. rewrite Hfresh.
  split; [reflexivity|]. apply table_reciprocal.
  by apply after_check_single_generation, reachable_single_generation.
Qed.

Lemma reciprocal_product_all_pairs_witness :
  ∃ r1 r2 w1,
    get_rate o0 initial_world "USD" "EUR" = Some (r1, w1)
    ∧ get_rate o0 w1 "EUR" "USD" = Some (r2, w1) ∧ r1 * r2 == 1.
Proof.
  destruct (reciprocal_product_all_pairs o0 o0 initial_world "USD" "EUR"
              o0_in_range reach_init) as (r1 & w1 & H1 & H2).
  assert (stale (time_check o0) (mgr w1) = false) as Hfresh.
  { vm_compute in H1. injection H1 as _ <-. reflexivity. }
  destruct (H2 Hfresh) as (r2 & Hr2 & Hprod).
  by exists r1, r2, w1.
Defined.

(** ** Refreshes when calls do not overlap *)

(** C2, as the code has it. The refresh is decided by one staleness check,
    made without a lock and not repeated. For calls that run one after
    the other, a stale window triggers exactly one refresh: the first
    call refreshes, and the later calls within the interval of the new
    time stamp find the table fresh. *)
Theorem one_refresh_per_window_sequential o w a b rest :
  in_range (uniform o) → stale (time_check o) (mgr w) = true →
  Forall (λ c, time_check c.1 - time_stamp o <= _update_interval (mgr w)) rest →
  ∃ rs w', get_rates ((o, (a, b)) :: rest) w = Some (rs, w')
    ∧ length rs = S (length rest)
    ∧ refresh_count w' = S (refresh_count w)
    ∧ _last_updated (mgr w') = time_stamp o.
Proof.
  intros Hu Hstale Hrest.
  destruct (get_rates_fresh rest (refreshed o w)) as [rs Hrs].
  { eapply Forall_impl; [exact Hrest|]. intros c Hc. by apply fresh_spec. }
  exists (Py.get (_rates (mgr (refreshed o w))) (pair_key a b) 1.0 :: rs),
         (refreshed o w).
  cbn [get_rates]. rewrite get_rate_result by done.
  unfold after_check. rewrite Hstale. simpl. rewrite Hrs. simpl.
  split; [done|]. split; [|split; [apply refresh_count_refreshed|done]].
  f_equal. by eapply get_rates_length.
Qed.

Lemma one_refresh_per_window_sequential_witness :
  ∃ rs w',
    get_rates [(o0, ("USD", "EUR")); (o1, ("USD", "EUR")); (o1, ("EUR", "GBP"))]
              initial_world = Some (rs, w')
    ∧ length rs = 3%nat
    ∧ refresh_count w' = 1%nat
    ∧ _last_updated (mgr w') = time_stamp o0.
Proof.
  apply (one_refresh_per_window_sequential o0 initial_world "USD" "EUR"
           [(o1, ("USD", "EUR")); (o1, ("EUR", "GBP"))]).
  - apply o0_in_range.
  - reflexivity.
  - repeat constructor; simpl; lra.
Defined.

Lemma last_refresh_reachable w g : last_refresh w g → reachable w.
Proof.
  induction 1 as [|o w g a b r w' _ IH Hu Hcall]; [apply reach_init|].
  by eapply reach_call.
Qed.

Lemma reachable_last_refresh w : reachable w → ∃ g, last_refresh w g.
Proof.
  induction 1 as [|o w a b r w' _ [g IH] Hu Hcall].
  - exists None. apply last_none.
  - eexists. by eapply last_call.
Qed.

Lemma last_refresh_generation w g : last_refresh w g → generation_of g w.
Proof.
  induction 1 as [|o w g a b r w' Hw IH Hu Hcall]; [done|].
  rewrite get_rate_result in Hcall by done. injection Hcall as _ <-.
  unfold after_check. destruct (stale _ _); [|done].
  cbn [generation_of].
  rewrite refreshed_rates
    by by eapply reachable_single_generation, last_refresh_reachable.
  do 3 (split; [done|]). by apply snapshot_consistent.
Qed.

(** C3, as the code has it. There is no isolated build and no swap: the
    refresh writes the live table entry by entry. When calls do not
    overlap, every call leaves the table either empty (never refreshed,
    time stamp 0) or one whole generation, in which every pair has its
    reciprocal (product 1 in exact arithmetic); [_last_updated] then holds
    the clock value that the call which wrote that generation read at the
    end of its refresh. *)
Theorem sequential_table_single_generation w g :
  last_refresh w g →
  generation_of g w
  ∧ ∀ o a b, in_range (uniform o) →
      ∃ r w', get_rate o w a b = Some (r, w')
        ∧ if stale (time_check o) (mgr w)
          then last_refresh w' (Some o)
               ∧ _rates (mgr w') = snapshot (uniform o)
               ∧ _last_updated (mgr w') = time_stamp o
          else last_refresh w' g ∧ w' = w.
Proof.
  intros Hw. split; [by apply last_refresh_generation|].
  intros o a b Hu. eexists _, _. split; [by apply get_rate_result|].
  pose proof (last_call o w g a b _ _ Hw Hu (get_rate_result o w a b Hu))
    as Hnext.
  unfold after_check in *. destruct (stale _ _).
  - split; [done|]. split; [|done].
    by eapply refreshed_rates, reachable_single_generation,
      last_refresh_reachable.
  - done.
Qed.

Lemma sequential_table_single_generation_witness :
  generation_of (Some o0) (refreshed o0 initial_world)
  ∧ ∀ o a b, in_range (uniform o) →
      ∃ r w', get_rate o (refreshed o0 initial_world) a b = Some (r, w')
        ∧ if stale (time_check o) (mgr (refreshed o0 initial_world))
          then last_refresh w' (Some o)
               ∧ _rates (mgr w') = snapshot (uniform o)
               ∧ _last_updated (mgr w') = time_stamp o
          else last_refresh w' (Some o0) ∧ w' = refreshed o0 initial_world.
Proof.
  apply (sequential_table_single_generation (refreshed o0 initial_world)
           (Some o0)).
  apply (last_call o0 initial_world None "USD" "EUR"
           (Py.get (_rates (mgr (refreshed o0 initial_world)))
                   (pair_key "USD" "EUR") 1.0)
           (refreshed o0 initial_world)).
  - apply last_none.
  - apply o0_in_range.
  - apply (get_rate_result o0 initial_world "USD" "EUR" o0_in_range).
Defined.

(** ** Overlapping calls *)

(** C2, as the spec words it, fails: two callers in the same stale window
    whose checks both run before the first refresh is over each refresh
    the table; no lock is taken and no check is repeated. *)
Lemma concurrent_callers_refresh_twice :
  let sys := Threads.run both_check_first two_callers in
  refresh_count (Threads.shared two_callers) = 0%nat
  ∧ Threads.results sys = [0.85; 0.85]
  ∧ refresh_count (Threads.shared sys) = 2%nat.
Proof. vm_compute. done. Qed.

(** C4, as the spec words it, fails when refreshes overlap: the second
    thread has finished its refresh, stamped the table and returned, and
    the table holds the first thread's USD_EUR beside the second thread's
    EUR_USD, whose product is not 1. *)
Lemma overlapped_refresh_breaks_reciprocal :
  let sys := Threads.run overtaken two_refreshers in
  (∃ t, Threads.threads sys !! 1%nat = Some t
        ∧ Threads.t_pc t = Threads.Returned 0.85)
  ∧ _last_updated (mgr (Threads.shared sys)) = time_stamp o_up
  ∧ Threads.table sys !! "USD_EUR" = Some 0.85
  ∧ Threads.table sys !! "EUR_USD" = Some (10000 # 8670)
  ∧ ¬ 0.85 * (10000 # 8670) == 1
  ∧ ¬ consistent (Threads.table sys).
Proof.
  intros sys.
  assert (Threads.table sys !! "USD_EUR" = Some 0.85) as H1
    by (vm_compute; reflexivity).
  assert (Threads.table sys !! "EUR_USD" = Some (10000 # 8670)) as H2
    by (vm_compute; reflexivity).
  split; [eexists; split; vm_compute; reflexivity|].
  split; [vm_compute; reflexivity|].
  do 3 (split; [done|]). intros Hc.
  destruct (Hc "USD" "EUR" _ H1) as (r' & Hr' & _ & Hprod).
  change (pair_key "EUR" "USD") with "EUR_USD" in Hr'.
  rewrite H2 in Hr'. injection Hr' as <-. done.
Qed.

(** C3, as the spec words it, fails: the refresh writes the live table in
    place, so during a refresh the table holds a pair without its
    reciprocal (first refresh) or a new rate next to the old reciprocal
    (later refreshes), a reader scheduled at that point returns the old
    entry, and the time stamp written at the end is the clock value read
    then, not the refresh start time. *)
Lemma refresh_is_not_atomic :
  (Threads.table half_pair !! "USD_EUR" = Some 0.85
   ∧ Threads.table half_pair !! "EUR_USD" = None
   ∧ ¬ consistent (Threads.table half_pair))
  ∧ (reachable world_gen1
     ∧ ∃ new old, Threads.table torn !! "USD_EUR" = Some new
       ∧ Threads.table torn !! "EUR_USD" = Some old
       ∧ Threads.results torn = [old]
       ∧ new == 0.867 ∧ old == 1 / 0.85
       ∧ ¬ new * old == 1
       ∧ ¬ consistent (Threads.table torn))
  ∧ (let done := Threads.run (replicate 16 1%nat) reader_and_writer in
     _last_updated (mgr (Threads.shared done)) = time_stamp o_writer
     ∧ ¬ _last_updated (mgr (Threads.shared done)) == time_check o_writer).
Proof.
  split; [|split].
  - assert (Threads.table half_pair !! "USD_EUR" = Some 0.85) as H1
      by (vm_compute; reflexivity).
    assert (Threads.table half_pair !! "EUR_USD" = None) as H2
      by (vm_compute; reflexivity).
    repeat split; [done..|]. intros Hc.
    destruct (Hc "USD" "EUR" _ H1) as (r' & Hr' & _).
    change (pair_key "EUR" "USD") with "EUR_USD" in Hr'. congruence.
  - split.
    { eapply (reach_call o0 initial_world "USD" "EUR");
        [apply reach_init|apply o0_in_range|].
      apply (get_rate_result o0 initial_world "USD" "EUR" o0_in_range). }
    assert (Threads.table torn !! "USD_EUR" = Some (8670 # 10000)) as H1
      by (vm_compute; reflexivity).
    assert (Threads.table torn !! "EUR_USD" = Some (100 # 85)) as H2
      by (vm_compute; reflexivity).
    exists (8670 # 10000), (100 # 85).
    do 2 (split; [done|]). split; [vm_compute; reflexivity|].
    do 3 (split; [done|]). intros Hc.
    destruct (Hc "USD" "EUR" _ H1) as (r' & Hr' & _ & Hprod).
    change (pair_key "EUR" "USD") with "EUR_USD" in Hr'.
    rewrite H2 in Hr'. injection Hr' as <-. done.
  - split; [vm_compute; reflexivity|]. vm_compute. discriminate.
Qed.

(** ** [get_instance] under every interleaving *)

Module SingletonFacts.
Import Singleton.

Lemma inv_spawn n : inv (spawn n).
Proof.
  split; simpl; [by left|by left|done|].
  intros tid p [-> _]%lookup_replicate. done.
Qed.

Lemma sched_step_at sys tid p :
  threads sys !! tid = Some p →
  sched_step sys tid
  = {| cls := (step tid p (cls sys)).2;
       threads := <[tid := (step tid p (cls sys)).1]> (threads sys) |}.
Proof. intros H. unfold sched_step. rewrite H. by destruct (step _ _ _). Qed.

Lemma sched_step_absent sys tid :
  threads sys !! tid = None → sched_step sys tid = sys.
Proof. intros H. unfold sched_step. by rewrite H. Qed.

Lemma lookup_stepped (ts : list pc) tid p' tid' q :
  <[tid := p']> ts !! tid' = Some q →
  (tid' = tid ∧ q = p') ∨ (tid' ≠ tid ∧ ts !! tid' = Some q).
Proof.
  intros H. destruct (decide (tid' = tid)) as [->|Hne].
  - left. split; [done|].
    destruct (decide (tid < length ts)%nat).
    + rewrite list_lookup_insert_eq in H by done. congruence.
    + rewrite list_insert_ge in H by lia.
      apply lookup_lt_Some in H. lia.
  - right. by rewrite list_lookup_insert_ne in H.
Qed.

Lemma inv_step sys tid : inv sys → inv (sched_step sys tid).
Proof.
  intros [Hslot Hheap Hholder Hthreads].
  destruct (threads sys !! tid) as [p|] eqn:Hp;
    [|by rewrite sched_step_absent].
  rewrite (sched_step_at _ _ _ Hp).
  pose proof (Hthreads _ _ Hp) as Hok.
  assert (tid < length (threads sys))%nat as Hlt by by eapply lookup_lt_Some.
  destruct sys as [c ts]. simpl in *.
  assert (∀ t q, _lock c = Some tid → ts !! t = Some q → t ≠ tid →
            critical q = false) as Hothers.
  { intros t q Hlock Hq Hne. pose proof (Hthreads _ _ Hq) as Hq'.
    destruct q; simpl in *; try done; destruct_and?; congruence. }
  destruct p; simpl in *.
  - (* Check1 *)
    split; simpl; [done| | |].
    + intros Hnone. destruct (Hheap Hnone) as [?|[t Ht]]; [by left|].
      right. exists t. rewrite list_lookup_insert_ne; [done|congruence].
    + intros t Ht. destruct (Hholder t Ht) as (q & Hq & Hcrit).
      exists q. rewrite list_lookup_insert_ne; [done|].
      intros <-. rewrite Hp in Hq. by injection Hq as <-.
    + intros t q [[-> ->]|[Hne Hq]]%lookup_stepped; [|by apply Hthreads].
      destruct Hslot as [Hnone|[Hsome _]]; [by rewrite Hnone|by rewrite Hsome].
  - (* Acquire *)
    destruct (_lock c) as [holder|] eqn:Hlock; simpl.
    + rewrite list_insert_id by done. split; simpl; rewrite ?Hlock; assumption.
    + split; simpl; [done| | |].
      * intros Hnone. destruct (Hheap Hnone) as [?|[t Ht]]; [by left|].
        pose proof (Hthreads _ _ Ht) as [? _]. congruence.
      * intros t [= <-]. exists Check2.
        by rewrite list_lookup_insert_eq.
      * intros t q [[-> ->]|[Hne Hq]]%lookup_stepped; [done|].
        pose proof (Hthreads _ _ Hq) as Hq'.
        destruct q; simpl in *; try done; destruct_and?; congruence.
  - (* Check2 *)
    split; simpl; [done| | |].
    + intros Hnone. destruct (Hheap Hnone) as [?|[t Ht]]; [by left|].
      right. exists t. rewrite list_lookup_insert_ne; [done|congruence].
    + intros t Ht. assert (t = tid) as -> by congruence.
      rewrite list_lookup_insert_eq by done. eexists. split; [done|].
      by destruct (_instance c).
    + intros t q [[-> ->]|[Hne Hq]]%lookup_stepped; [|by apply Hthreads].
      destruct Hslot as [Hnone|[Hsome _]].
      * rewrite Hnone. simpl. repeat split; try done.
        destruct (Hheap Hnone) as [?|[t Ht]]; [done|].
        destruct (decide (t = tid)) as [->|Hne]; [congruence|].
        by pose proof (Hothers _ _ Hok Ht Hne).
      * by rewrite Hsome.
  - (* Construct *)
    destruct Hok as (Hlock & Hnone & Hnil).
    split; simpl.
    + by left.
    + intros _. right. exists tid. rewrite Hnil. simpl.
      by rewrite list_lookup_insert_eq.
    + intros t Ht. assert (t = tid) as -> by congruence.
      rewrite list_lookup_insert_eq by done. by eexists.
    + intros t q [[-> ->]|[Hne Hq]]%lookup_stepped.
      * simpl. rewrite Hnil. done.
      * pose proof (Hthreads _ _ Hq) as Hq'.
        pose proof (Hothers _ _ Hlock Hq Hne).
        destruct q; simpl in *; try done; congruence.
  - (* Assign *)
    destruct Hok as (Hlock & Hnone & -> & Hlen).
    split; simpl.
    + by right.
    + done.
    + intros t Ht. assert (t = tid) as -> by congruence.
      rewrite list_lookup_insert_eq by done. by eexists.
    + intros t q [[-> ->]|[Hne Hq]]%lookup_stepped; [done|].
      pose proof (Hthreads _ _ Hq) as Hq'.
      pose proof (Hothers _ _ Hlock Hq Hne).
      destruct q; simpl in *; try done; destruct_and?; congruence.
  - (* Release *)
    destruct Hok as (Hlock & Hsome).
    split; simpl.
    + done.
    + congruence.
    + done.
    + intros t q [[-> ->]|[Hne Hq]]%lookup_stepped; [done|].
      pose proof (Hthreads _ _ Hq) as Hq'.
      pose proof (Hothers _ _ Hlock Hq Hne).
      destruct q; simpl in *; try done; destruct_and?; congruence.
  - (* Return *)
    split; simpl; [done|congruence| |].
    + intros t Ht. destruct (Hholder t Ht) as (q & Hq & Hcrit).
      exists q. rewrite list_lookup_insert_ne; [done|].
      intros <-. rewrite Hp in Hq. by injection Hq as <-.
    + intros t q [[-> ->]|[Hne Hq]]%lookup_stepped; [done|by apply Hthreads].
  - (* Done *)
    rewrite list_insert_id by done. by split.
Qed.

Lemma inv_run sched sys : inv sys → inv (run sched sys).
Proof.
  revert sys. induction sched as [|tid sched IH]; intros sys Hinv; [done|].
  apply IH. by apply inv_step.
Qed.

Lemma inv_results sys : inv sys → Forall (eq (Some 0%nat)) (results sys).
Proof.
  intros Hinv. apply Forall_forall. intros r Hr.
  apply list_elem_of_omap in Hr as (p & Hp & Hdone).
  apply list_elem_of_lookup in Hp as [tid Hp].
  destruct p; try done. injection Hdone as ->.
  by destruct (inv_threads _ Hinv _ _ Hp) as [-> _].
Qed.

Lemma inv_one_object sys : inv sys → (length (heap (cls sys)) ≤ 1)%nat.
Proof.
  intros Hinv. destruct (inv_slot _ Hinv) as [Hnone|[_ ->]]; [|done].
  destruct (inv_heap _ Hinv Hnone) as [->|[tid Ht]]; [simpl; lia|].
  destruct (inv_threads _ Hinv _ _ Ht) as (_ & _ & _ & ->). done.
Qed.

(** Once published, the instance stays. *)
Lemma instance_stays sched sys :
  inv sys → _instance (cls sys) = Some 0%nat →
  _instance (cls (run sched sys)) = Some 0%nat.
Proof.
  revert sys. induction sched as [|tid sched IH]; intros sys Hinv Hsome; [done|].
  simpl. apply IH; [by apply inv_step|].
  destruct (threads sys !! tid) as [p|] eqn:Hp;
    [|by rewrite sched_step_absent].
  rewrite (sched_step_at _ _ _ Hp). pose proof (inv_threads _ Hinv _ _ Hp) as Hok.
  destruct p; simpl in *; try done.
  - by destruct (_lock (cls sys)).
  - destruct Hok as (_ & Hnone & _). congruence.
Qed.

(** *** Every thread returns *)

Lemma step_own tid p c :
  lock_free_for tid c → (_lock c = Some tid → critical p = true) →
  (rank (step tid p c).1 ≤ rank p - 1)%nat
  ∧ lock_free_for tid (step tid p c).2.
Proof.
  unfold lock_free_for. intros Hfree Hcrit.
  destruct p; simpl; try (split; [lia|done]).
  - destruct (_instance c); simpl; (split; [lia|done]).
  - destruct (_lock c) as [t|] eqn:Hlock; simpl.
    + destruct Hfree as [?|[= ->]]; [done|]. by specialize (Hcrit eq_refl).
    + split; [lia|by right].
  - destruct (_instance c); simpl; (split; [lia|done]).
  - split; [lia|by left].
Qed.

Lemma run_own k tid sys p :
  inv sys → threads sys !! tid = Some p → lock_free_for tid (cls sys) →
  let sys' := run (replicate k tid) sys in
  inv sys' ∧ lock_free_for tid (cls sys')
  ∧ length (threads sys') = length (threads sys)
  ∧ (∃ p', threads sys' !! tid = Some p' ∧ (rank p' ≤ rank p - k)%nat)
  ∧ (∀ t, t ≠ tid → threads sys' !! t = threads sys !! t).
Proof.
  revert sys p. induction k as [|k IH]; intros sys p Hinv Hp Hfree.
  { simpl. do 3 (split; [done|]). split; [|done].
    exists p. split; [done|lia]. }
  cbn [replicate run foldl]. fold (run (replicate k tid) (sched_step sys tid)).
  assert (tid < length (threads sys))%nat as Hlt by by eapply lookup_lt_Some.
  destruct (step_own tid p (cls sys) Hfree) as [Hrank Hfree'].
  { intros Hl. destruct (inv_holder _ Hinv _ Hl) as (q & Hq & Hc). congruence. }
  destruct (IH (sched_step sys tid) (step tid p (cls sys)).1)
    as (Hinv' & Hfree'' & Hlen & (p' & Hp' & Hrank') & Hrest).
  - by apply inv_step.
  - rewrite (sched_step_at _ _ _ Hp). simpl. by rewrite list_lookup_insert_eq.
  - by rewrite (sched_step_at _ _ _ Hp).
  - cbv zeta. rewrite (sched_step_at _ _ _ Hp) in *. simpl in Hlen, Hrest.
    rewrite length_insert in Hlen.
    do 3 (split; [done|]). split.
    + exists p'. split; [done|]. lia.
    + intros t Hne. rewrite Hrest by done. by rewrite list_lookup_insert_ne.
Qed.

Lemma run_finish tid sys :
  inv sys → (tid < length (threads sys))%nat → lock_free_for tid (cls sys) →
  let sys' := run (finish tid) sys in
  inv sys' ∧ _lock (cls sys') = None
  ∧ length (threads sys') = length (threads sys)
  ∧ threads sys' !! tid = Some (Done (Some 0%nat))
  ∧ (∀ t, t ≠ tid → threads sys' !! t = threads sys !! t).
Proof.
  intros Hinv Hlt Hfree.
  destruct (lookup_lt_is_Some_2 _ _ Hlt) as [p Hp].
  destruct (run_own 7 tid sys p Hinv Hp Hfree)
    as (Hinv' & Hfree' & Hlen & (p' & Hp' & Hrank) & Hrest).
  assert (rank p' = 0)%nat as Hzero by (destruct p; simpl in Hrank; lia).
  destruct p'; try done.
  destruct (inv_threads _ Hinv' _ _ Hp') as [-> _].
  split; [done|]. split; [|done].
  destruct Hfree' as [?|Hl]; [done|].
  destruct (inv_holder _ Hinv' _ Hl) as (q & Hq & Hc).
  rewrite Hp' in Hq. by injection Hq as <-.
Qed.

Lemma finish_all_S n : finish_all (S n) = finish_all n ++ finish n.
Proof.
  unfold finish_all. rewrite seq_S, flat_map_app. cbn [flat_map].
  by rewrite app_nil_r.
Qed.

Lemma run_app s1 s2 sys : run (s1 ++ s2) sys = run s2 (run s1 sys).
Proof. apply foldl_app. Qed.

Lemma run_finish_all n sys :
  inv sys → _lock (cls sys) = None → (n ≤ length (threads sys))%nat →
  let sys' := run (finish_all n) sys in
  inv sys' ∧ _lock (cls sys') = None
  ∧ length (threads sys') = length (threads sys)
  ∧ ∀ t, (t < n)%nat → threads sys' !! t = Some (Done (Some 0%nat)).
Proof.
  intros Hinv Hlock. induction n as [|n IH]; intros Hn.
  { simpl. do 3 (split; [done|]). intros t Ht. lia. }
  rewrite finish_all_S, run_app. cbv zeta.
  destruct IH as (Hinv' & Hlock' & Hlen & Hdone); [lia|].
  destruct (run_finish n (run (finish_all n) sys))
    as (Hinv'' & Hlock'' & Hlen' & Hn' & Hrest); [done|lia|by left|].
  split; [done|]. split; [done|]. split; [congruence|].
  intros t Ht. destruct (decide (t = n)) as [->|Hne]; [done|].
  rewrite Hrest by done. apply Hdone. lia.
Qed.

Lemma run_drain sys :
  inv sys →
  results (run (drain sys) sys)
  = replicate (length (threads sys)) (Some 0%nat).
Proof.
  intros Hinv. unfold drain. rewrite run_app.
  assert (∃ sys1, sys1 = run match _lock (cls sys) with
                             | Some tid => finish tid
                             | None => []
                             end sys
           ∧ inv sys1 ∧ _lock (cls sys1) = None
           ∧ length (threads sys1) = length (threads sys))
    as (sys1 & <- & Hinv1 & Hlock1 & Hlen1).
  { eexists. split; [done|].
    destruct (_lock (cls sys)) as [tid|] eqn:Hl; [|done].
    destruct (inv_holder _ Hinv _ Hl) as (q & Hq & _).
    destruct (run_finish tid sys) as (? & ? & ? & _);
      [done|by eapply lookup_lt_Some|by right|done]. }
  rewrite <-Hlen1.
  destruct (run_finish_all (length (threads sys1)) sys1)
    as (_ & _ & Hlen & Hdone); [done..|].
  unfold results. revert Hlen Hdone.
  generalize (threads (run (finish_all (length (threads sys1))) sys1)).
  generalize (length (threads sys1)). clear.
  intros n l <- Hdone.
  assert (l = replicate (length l) (Done (Some 0%nat))) as ->.
  { apply list_eq. intros i. destruct (decide (i < length l)%nat).
    - rewrite Hdone by done. by rewrite lookup_replicate_2.
    - rewrite !lookup_ge_None_2; [done|rewrite length_replicate; lia|lia]. }
  rewrite length_replicate. clear.
  induction (length l) as [|n IH]; [done|]. simpl. f_equal. apply IH.
Qed.

Lemma spawn_threads_length sched n :
  length (threads (run sched (spawn n))) = n.
Proof.
  assert (∀ sys, length (threads (run sched sys)) = length (threads sys)) as H.
  { induction sched as [|tid sched IH]; intros sys; [done|].
    simpl. rewrite IH. unfold sched_step.
    destruct (threads sys !! tid); [|done]. destruct (step _ _ _).
    simpl. by rewrite length_insert. }
  rewrite H. simpl. by rewrite length_replicate.
Qed.

(** *** Calls one after the other *)

Lemma get_instances_built k c :
  _instance c = Some 0%nat →
  get_instances k c = (replicate k (Some 0%nat), c).
Proof.
  intros Hc. induction k as [|k IH]; [done|].
  simpl. unfold get_instance. rewrite Hc, IH. done.
Qed.

End SingletonFacts.

(** C1. Whatever the number of threads calling [get_instance] and however
    their steps interleave, every call that has returned has returned the
    same object (the first one built), at most one object is ever built,
    the instance slot never changes once it is set, and every thread can
    still return; called one after the other, the first call builds the
    object and every call returns it. *)
Theorem get_instance_singleton (n : nat) (sched : list nat) (k : nat) :
  let sys := Singleton.run sched (Singleton.spawn n) in
  Forall (eq (Some 0%nat)) (Singleton.results sys)
  ∧ (length (Singleton.heap (Singleton.cls sys)) ≤ 1)%nat
  ∧ (Singleton._instance (Singleton.cls sys) = None
     ∨ ∀ more,
         Singleton._instance
           (Singleton.cls (Singleton.run (sched ++ more) (Singleton.spawn n)))
         = Some 0%nat)
  ∧ (∃ more,
       Singleton.results (Singleton.run (sched ++ more) (Singleton.spawn n))
       = replicate n (Some 0%nat))
  ∧ Singleton.get_instances (S k) Singleton.class_init
    = (replicate (S k) (Some 0%nat),
       {| Singleton._instance := Some 0%nat;
          Singleton._lock := None;
          Singleton.heap := [__init__] |}).
Proof.
  intros sys.
  assert (Singleton.inv sys) as Hinv
    by apply SingletonFacts.inv_run, SingletonFacts.inv_spawn.
  split; [by apply SingletonFacts.inv_results|].
  split; [by apply SingletonFacts.inv_one_object|].
  split; [|split].
  - destruct (Singleton.inv_slot _ Hinv) as [Hnone|[Hsome _]]; [by left|].
    right. intros more. rewrite SingletonFacts.run_app.
    by apply SingletonFacts.instance_stays.
  - exists (Singleton.drain sys). rewrite SingletonFacts.run_app.
    fold sys. rewrite SingletonFacts.run_drain by done.
    unfold sys. by rewrite SingletonFacts.spawn_threads_length.
  - change (Singleton.get_instances (S k) Singleton.class_init)
      with (let '(rs, c2) :=
              Singleton.get_instances k
                {| Singleton._instance := Some 0%nat;
                   Singleton._lock := None;
                   Singleton.heap := [__init__] |} in
            (Some 0%nat :: rs, c2)).
    by rewrite SingletonFacts.get_instances_built.
Qed.

(** ** A thread running alone *)

Module ThreadsFacts.

Import Threads.

Lemma threads_run_app s1 s2 sys : run (s1 ++ s2) sys = run s2 (run s1 sys).
Proof. apply foldl_app. Qed.

Lemma step_alone t w :
  sched_step (alone t w) 0 = alone (at_pc (step t w).1 t) (step t w).2.
Proof. unfold sched_step, alone. simpl. by destruct (step t w). Qed.

Lemma run_alone_S k t w :
  run (replicate (S k) 0%nat) (alone t w)
  = run (replicate k 0%nat) (alone (at_pc (step t w).1 t) (step t w).2).
Proof. cbn [replicate run foldl]. by rewrite step_alone. Qed.

Lemma step_forward t i item w :
  base_rates !! i = Some item →
  step (at_pc (AtForward i) t) w
  = (AtReverse i,
     with_mgr (store_forward (t_oracle t) i item.1 item.2 (mgr w)) w).
Proof. intros Hi. unfold step. cbn [at_pc t_pc t_oracle]. by rewrite Hi. Qed.

Lemma step_reverse t i item w s' :
  base_rates !! i = Some item → store_reverse item.1 (mgr w) = Some s' →
  step (at_pc (AtReverse i) t) w = (loop_head (S i), with_mgr s' w).
Proof.
  intros Hi Hs. unfold step. cbn [at_pc t_pc t_oracle]. by rewrite Hi, Hs.
Qed.

Lemma iteration_alone t i item m s out :
  base_rates !! i = Some item → in_range (uniform (t_oracle t)) →
  run (replicate 2 0%nat)
      (alone (at_pc (AtForward i) t) {| mgr := set_rates m s; stdout := out |})
  = alone (at_pc (loop_head (S i)) t)
      {| mgr := set_rates (write_all (writes_of (uniform (t_oracle t)) i item) m) s;
         stdout := out |}.
Proof.
  intros Hi Hu.
  rewrite run_alone_S, (step_forward _ _ _ _ Hi). cbn [fst snd].
  change (at_pc (AtReverse i) (at_pc (AtForward i) t))
    with (at_pc (AtReverse i) t).
  rewrite run_alone_S. erewrite step_reverse; [done|exact Hi|].
  cbn [with_mgr mgr]. apply loop_body_writes; [|done].
  by apply base_rates_positive in Hi.
Qed.

Lemma loop_alone n t i m s out :
  (i + n = length base_rates)%nat → in_range (uniform (t_oracle t)) →
  run (replicate (2 * n) 0%nat)
      (alone (at_pc (loop_head i) t) {| mgr := set_rates m s; stdout := out |})
  = alone (at_pc AtStamp t)
      {| mgr := set_rates
                  (write_all (writes_from (uniform (t_oracle t)) i
                                (drop i base_rates)) m) s;
         stdout := out |}.
Proof.
  intros Hn Hu. revert i m Hn. induction n as [|n IH]; intros i m Hn.
  - unfold loop_head. rewrite lookup_ge_None_2 by lia.
    rewrite drop_ge by lia. done.
  - destruct (lookup_lt_is_Some_2 base_rates i) as [item Hi]; [lia|].
    unfold loop_head at 1. rewrite Hi.
    replace (2 * S n)%nat with (2 + 2 * n)%nat by lia.
    rewrite replicate_add, threads_run_app.
    rewrite (iteration_alone _ _ _ _ _ _ Hi Hu).
    rewrite IH by lia.
    rewrite (drop_S _ _ _ Hi). cbn [writes_from].
    unfold write_all. by rewrite foldl_app.
Qed.

(** A thread that runs alone does what [get_rate] does. *)
Lemma run_alone o w a b :
  in_range (uniform o) →
  ∃ r w', get_rate o w a b = Some (r, w')
    ∧ run (replicate 16 0%nat) (alone (call o a b) w)
      = alone (at_pc (Returned r) (call o a b)) w'.
Proof.
  intros Hu. eexists _, _. split; [by apply get_rate_result|].
  unfold after_check. rewrite run_alone_S.
  unfold step at 1 2. cbn [call t_pc t_oracle fst snd].
  destruct (stale (time_check o) (mgr w)) eqn:Hs.
  - rewrite run_alone_S. unfold step at 1 2. cbn [at_pc t_pc fst snd].
    change (at_pc (loop_head 0) (at_pc AtPrint (call o a b)))
      with (at_pc (loop_head 0) (call o a b)).
    replace (mgr w) with (set_rates (_rates (mgr w)) (mgr w))
      by by destruct (mgr w).
    change (replicate 14 0%nat)
      with (replicate (2 * 6) 0%nat ++ replicate 2 0%nat).
    rewrite threads_run_app.
    rewrite (loop_alone 6 (call o a b) 0) by done.
    cbn [drop]. fold (writes (uniform o)). rewrite write_all_union.
    reflexivity.
  - reflexivity.
Qed.

End ThreadsFacts.

(** * Further properties of the module *)

(** ** The table and the clock *)

Lemma stored_key_currencies a b :
  pair_key a b ∈ stored_keys ↔ a ∈ currencies ∧ b ∈ currencies ∧ a ≠ b.
Proof.
  split.
  - intros Hin.
    assert (∃ k, k ∈ stored_keys ∧ pair_key a b = k) as (k & Hk & Heq) by eauto.
    clear Hin.
    let ks := eval vm_compute in stored_keys in change stored_keys with ks in Hk.
    repeat (apply elem_of_cons in Hk as [->|Hk]);
      [ pose proof (f_equal (Py.split "_") Heq) as Hs;
        apply pair_key_split in Hs as [-> ->];
        (split; [|split; [|done]]); unfold currencies; set_solver .. | ].
    by apply elem_of_nil in Hk.
  - unfold currencies. intros (Ha & Hb & Hne).
    repeat (apply elem_of_cons in Ha as [->|Ha]);
      try (by apply elem_of_nil in Ha);
      repeat (apply elem_of_cons in Hb as [->|Hb]);
      try (by apply elem_of_nil in Hb); try done;
      vm_compute; set_solver.
Qed.

Lemma snapshot_size u : size (snapshot u) = 12%nat.
Proof.
  unfold snapshot. rewrite map_size_list_to_map.
  - by rewrite length_reverse.
  - rewrite fmap_reverse, writes_keys, reverse_Permutation.
    apply stored_keys_NoDup.
Qed.

Lemma snapshot_positive u :
  in_range u → map_Forall (λ _ r, 0 < r) (snapshot u).
Proof.
  intros Hu k r H.
  apply snapshot_lookup, elem_of_writes in H as (i & item & Hi & H).
  destruct (base_rates_positive _ _ Hi) as [Hpos _].
  destruct (fluctuated_bounds _ i _ Hu Hpos) as (_ & _ & Hv).
  destruct H as [[_ ->]|[_ ->]]; [done|].
  unfold Qdiv. rewrite Qmult_1_l. by apply Qinv_lt_0_compat.
Qed.

Lemma single_generation_positive m :
  single_generation m → map_Forall (λ _ r, 0 < r) m.
Proof.
  intros [->|(u & Hu & ->)]; [apply map_Forall_empty|by apply snapshot_positive].
Qed.

Lemma reachable_interval w : reachable w → _update_interval (mgr w) = 3600.
Proof.
  induction 1 as [|o w a b r w' _ IH Hu Hcall]; [done|].
  rewrite get_rate_result in Hcall by done. injection Hcall as _ <-.
  unfold after_check. by destruct (stale _ _).
Qed.

(** X1. After a refresh the table holds exactly the twelve ordered pairs of
    distinct codes among USD, EUR, GBP and JPY. *)
Theorem refresh_covers_currency_pairs o w :
  in_range (uniform o) → reachable w →
  ∃ w', _update_rates o w = Some w'
    ∧ size (_rates (mgr w')) = 12%nat
    ∧ ∀ a b, is_Some (_rates (mgr w') !! pair_key a b)
             ↔ a ∈ currencies ∧ b ∈ currencies ∧ a ≠ b.
Proof.
  intros Hu Hw. eexists. split; [by apply update_rates_result|].
  cbn [mgr _rates].
  rewrite snapshot_absorb by by apply reachable_single_generation.
  split; [apply snapshot_size|]. intros a b.
  by rewrite <-snapshot_stored, stored_key_currencies.
Qed.

Lemma refresh_covers_currency_pairs_witness :
  ∃ w', _update_rates o0 initial_world = Some w'
    ∧ size (_rates (mgr w')) = 12%nat
    ∧ ∀ a b, is_Some (_rates (mgr w') !! pair_key a b)
             ↔ a ∈ currencies ∧ b ∈ currencies ∧ a ≠ b.
Proof.
  apply (refresh_covers_currency_pairs o0 initial_world).
  - apply o0_in_range.
  - apply reach_init.
Defined.

(** X2. Every rate is positive: after any call the stored rates are all
    positive and the rate returned is positive. *)
Theorem rates_are_positive o w a b :
  in_range (uniform o) → reachable w →
  ∃ r w', get_rate o w a b = Some (r, w')
    ∧ 0 < r ∧ map_Forall (λ _ v, 0 < v) (_rates (mgr w')).
Proof.
  intros Hu Hw. eexists _, _. split; [by apply get_rate_result|].
  assert (map_Forall (λ _ v, 0 < v) (_rates (mgr (after_check o w)))) as Hpos.
  { by apply single_generation_positive, after_check_single_generation,
      reachable_single_generation. }
  split; [|done]. unfold Py.get.
  destruct (_ !! pair_key a b) as [r|] eqn:Hr; simpl; [|done].
  by apply (map_Forall_lookup_1 _ _ _ _ Hpos Hr).
Qed.

Lemma rates_are_positive_witness :
  ∃ r w', get_rate o0 initial_world "EUR" "USD" = Some (r, w')
    ∧ 0 < r ∧ map_Forall (λ _ v, 0 < v) (_rates (mgr w')).
Proof.
  apply (rates_are_positive o0 initial_world "EUR" "USD").
  - apply o0_in_range.
  - apply reach_init.
Defined.

(** X4. Refreshes are more than an hour apart: the interval stays 3600 and a
    call either leaves the manager as it is or moves [_last_updated]
    forward by more than 3600, the clock not running backwards during the
    call. *)
Theorem refreshes_are_an_hour_apart o w a b :
  in_range (uniform o) → reachable w → time_check o <= time_stamp o →
  ∃ r w', get_rate o w a b = Some (r, w')
    ∧ _update_interval (mgr w') = 3600
    ∧ (w' = w ∨ 3600 < _last_updated (mgr w') - _last_updated (mgr w)).
Proof.
  intros Hu Hw Hclock. eexists _, _. split; [by apply get_rate_result|].
  pose proof (reachable_interval _ Hw) as Hint.
  unfold after_check. destruct (stale _ _) eqn:Hs; [|by split; [|left]].
  split; [done|]. right. cbn [refreshed mgr _last_updated].
  apply stale_spec in Hs. rewrite Hint in Hs. lra.
Qed.

Lemma refreshes_are_an_hour_apart_witness :
  ∃ r w', get_rate o0 initial_world "USD" "EUR" = Some (r, w')
    ∧ _update_interval (mgr w') = 3600
    ∧ (w' = initial_world
       ∨ 3600 < _last_updated (mgr w') - _last_updated (mgr initial_world)).
Proof.
  apply (refreshes_are_an_hour_apart o0 initial_world "USD" "EUR").
  - apply o0_in_range.
  - apply reach_init.
  - simpl. lra.
Defined.

(** X5. A new manager does not refresh while the clock reads 3600 or less:
    the never-filled table is not told apart from a fresh one, every pair
    gets the default 1.0 and nothing changes. *)
Theorem new_manager_early_clock o a b :
  time_check o <= 3600 →
  get_rate o initial_world a b = Some (1.0, initial_world).
Proof.
  intros Ht. unfold get_rate, _update_rates_if_needed.
  assert (stale (time_check o) (mgr initial_world) = false) as ->; [|done].
  apply fresh_spec. simpl. lra.
Qed.

Lemma new_manager_early_clock_witness :
  get_rate {| time_check := 100; time_stamp := 101; uniform := λ _, 0 |}
           initial_world "USD" "EUR"
  = Some (1.0, initial_world).
Proof.
  apply (new_manager_early_clock
           {| time_check := 100; time_stamp := 101; uniform := λ _, 0 |}
           "USD" "EUR").
  simpl. lra.
Defined.

(** X6. A second call within the interval returns the very same rate and
    changes nothing. *)
Theorem rate_is_cached o1 o2 w a b :
  in_range (uniform o1) →
  ∃ r w1, get_rate o1 w a b = Some (r, w1)
    ∧ (time_check o2 - _last_updated (mgr w1) <= _update_interval (mgr w1) →
       get_rate o2 w1 a b = Some (r, w1)).
Proof.
  intros Hu. eexists _, _. split; [by apply get_rate_result|].
  intros Hfresh%fresh_spec. unfold get_rate at 1, _update_rates_if_needed.
  by rewrite Hfresh.
Qed.

Lemma rate_is_cached_witness :
  ∃ r w1, get_rate o0 initial_world "USD" "EUR" = Some (r, w1)
    ∧ get_rate o1 w1 "USD" "EUR" = Some (r, w1).
Proof.
  destruct (rate_is_cached o0 o1 initial_world "USD" "EUR" o0_in_range)
    as (r & w1 & Hfirst & Hsecond).
  exists r, w1. split; [assumption|]. apply Hsecond.
  vm_compute in Hfirst. injection Hfirst as _ <-. vm_compute. discriminate.
Defined.

Lemma reciprocal_antitone a b : 0 < a → a <= b → 1 / b <= 1 / a.
Proof.
  intros Ha Hab. assert (0 < b) as Hb by lra.
  apply Qle_shift_div_l; [done|].
  assert (1 / b * a == a / b) as -> by (field; lra).
  apply Qle_shift_div_r; [done|]. lra.
Qed.

(** X3. A refresh stores each reverse rate as the reciprocal of the forward
    rate, so in exact arithmetic (binary64 rounding set aside) it lies
    between the reciprocals of the two ends of the 2% band around the base
    rate. *)
Theorem reverse_rate_bound o w i item rp :
  in_range (uniform o) → base_rates !! i = Some item →
  reverse_pair item.1 = Some rp →
  ∃ w' v, _update_rates o w = Some w'
    ∧ _rates (mgr w') !! rp = Some v
    ∧ v = 1 / (item.2 * (1 + uniform o i))
    ∧ 1 / (item.2 * 1.02) <= v ∧ v <= 1 / (item.2 * 0.98).
Proof.
  intros Hu Hi Hrp. eexists _, _.
  split; [by apply update_rates_result|]. cbn [mgr _rates].
  split.
  { apply lookup_union_Some_l, snapshot_lookup, elem_of_writes. eauto 10. }
  split; [done|].
  destruct (base_rates_positive _ _ Hi) as [Hpos _].
  destruct (fluctuated_bounds _ i _ Hu Hpos) as (Hlo & Hhi & Hv).
  split; apply reciprocal_antitone; try done.
  apply Qmult_lt_0_compat; [done|reflexivity].
Qed.

Lemma reverse_rate_bound_witness :
  ∃ w' v, _update_rates o0 initial_world = Some w'
    ∧ _rates (mgr w') !! "EUR_USD" = Some v
    ∧ v = 1 / (0.85 * (1 + 0))
    ∧ 1 / (0.85 * 1.02) <= v ∧ v <= 1 / (0.85 * 0.98).
Proof.
  apply (reverse_rate_bound o0 initial_world 0 ("USD_EUR", 0.85) "EUR_USD").
  - apply o0_in_range.
  - reflexivity.
  - reflexivity.
Defined.

Lemma convert_result o w x a b :
  in_range (uniform o) →
  convert o w x a b
  = Some (x * Py.get (_rates (mgr (after_check o w))) (pair_key a b) 1.0,
          after_check o w).
Proof. intros Hu. unfold convert. by rewrite get_rate_result. Qed.

Lemma convert_fresh o w x a b :
  stale (time_check o) (mgr w) = false →
  convert o w x a b = Some (x * Py.get (_rates (mgr w)) (pair_key a b) 1.0, w).
Proof.
  intros Hs. unfold convert, get_rate, _update_rates_if_needed. by rewrite Hs.
Qed.

(** X7. Converting an amount and converting the result back, within one
    generation of the table, gives the amount back (exact arithmetic). *)
Theorem convert_round_trip o1 o2 w x a b :
  in_range (uniform o1) → reachable w →
  ∃ y w1, convert o1 w x a b = Some (y, w1)
    ∧ (time_check o2 - _last_updated (mgr w1) <= _update_interval (mgr w1) →
       ∃ z, convert o2 w1 y b a = Some (z, w1) ∧ z == x).
Proof.
  intros Hu Hw. eexists _, _. split; [by apply convert_result|].
  intros Hfresh%fresh_spec. eexists. split; [by apply convert_fresh|].
  rewrite <-Qmult_assoc, table_reciprocal; [ring|].
  by apply after_check_single_generation, reachable_single_generation.
Qed.

Lemma convert_round_trip_witness :
  ∃ y z w1, convert o0 initial_world 1000 "USD" "EUR" = Some (y, w1)
    ∧ convert o1 w1 y "EUR" "USD" = Some (z, w1) ∧ z == 1000.
Proof.
  destruct (convert_round_trip o0 o1 initial_world 1000 "USD" "EUR"
              o0_in_range reach_init) as (y & w1 & Hthere & Hback).
  assert (time_check o1 - _last_updated (mgr w1) <= _update_interval (mgr w1))
    as Hfresh.
  { vm_compute in Hthere. injection Hthere as _ <-. vm_compute. discriminate. }
  destruct (Hback Hfresh) as (z & Hz & Heq).
  by exists y, z, w1.
Defined.

(** X8. A conversion of an amount that is a binary64 value, between codes
    that are not two distinct codes among USD, EUR, GBP and JPY, does not
    fail: it gives the amount back. *)
Theorem convert_unknown_pair o w x a b :
  in_range (uniform o) → reachable w → Binary64.representable x →
  a ∉ currencies ∨ b ∉ currencies ∨ a = b →
  ∃ y w', convert o w x a b = Some (y, w') ∧ y = x * 1.0 ∧ y == x.
Proof.
  intros Hu Hw _ Hpair. eexists _, _. split; [by apply convert_result|].
  unfold Py.get. rewrite single_generation_absent.
  - split; [done|]. simpl. ring.
  - by apply after_check_single_generation, reachable_single_generation.
  - rewrite stored_key_currencies. intros (Ha & Hb & Hne).
    by destruct Hpair as [?|[?|?]].
Qed.

Lemma convert_unknown_pair_witness :
  ∃ y w', convert o0 initial_world 250 "USD" "CHF" = Some (y, w')
    ∧ y = 250 * 1.0 ∧ y == 250.
Proof.
  apply (convert_unknown_pair o0 initial_world 250 "USD" "CHF").
  - apply o0_in_range.
  - apply reach_init.
  - exists 250%Z, 0%Z. split; [reflexivity|]. split; [lia|reflexivity].
  - right. left. unfold currencies. intros Hin.
    repeat (apply elem_of_cons in Hin as [Hin|Hin]; [discriminate Hin|]).
    by apply elem_of_nil in Hin.
Defined.

(** X9. Conversion keeps the order of amounts that are binary64 values,
    and so their sign: a smaller amount never converts to a larger one. *)
Theorem convert_monotone o w x y a b :
  in_range (uniform o) → reachable w →
  Binary64.representable x → Binary64.representable y → x <= y →
  ∃ cx cy w', convert o w x a b = Some (cx, w')
    ∧ convert o w y a b = Some (cy, w')
    ∧ cx <= cy ∧ (0 <= x → 0 <= cx) ∧ (y <= 0 → cy <= 0).
Proof.
  intros Hu Hw _ _ Hxy. eexists _, _, _.
  split; [by apply convert_result|]. split; [by apply convert_result|].
  assert (0 < Py.get (_rates (mgr (after_check o w))) (pair_key a b) 1.0)
    as Hpos.
  { unfold Py.get. destruct (_ !! pair_key a b) as [r|] eqn:Hr; simpl; [|done].
    eapply (map_Forall_lookup_1 (λ _ v, 0 < v)); [|exact Hr].
    by apply single_generation_positive, after_check_single_generation,
      reachable_single_generation. }
  set (r := Py.get _ _ _) in *.
  split; [by apply Qmult_le_r|]. split.
  - intros Hx. apply Qmult_le_0_compat; [done|]. by apply Qlt_le_weak.
  - intros Hy. apply Qle_trans with (0 * r); [by apply Qmult_le_r|].
    rewrite Qmult_0_l. apply Qle_refl.
Qed.

Lemma convert_monotone_witness :
  ∃ cx cy w', convert o0 initial_world 10 "USD" "JPY" = Some (cx, w')
    ∧ convert o0 initial_world 20 "USD" "JPY" = Some (cy, w')
    ∧ cx <= cy ∧ 0 <= cx.
Proof.
  destruct (convert_monotone o0 initial_world 10 20 "USD" "JPY"
              o0_in_range reach_init)
    as (cx & cy & w' & Hx & Hy & Hle & Hpos & _).
  { exists 10%Z, 0%Z. split; [reflexivity|]. split; [lia|reflexivity]. }
  { exists 20%Z, 0%Z. split; [reflexivity|]. split; [lia|reflexivity]. }
  { discriminate. }
  exists cx, cy, w'. do 3 (split; [assumption|]). apply Hpos. discriminate.
Defined.

(** ** Converters *)

Module ConverterFacts.

Lemma new_start :
  Converter.new Converter.start
  = ({| Converter.rate_manager := Some 0%nat |},
     {| Converter.classes :=
          {| Singleton._instance := Some 0%nat;
             Singleton._lock := None;
             Singleton.heap := [__init__] |};
        Converter.printed := [] |}).
Proof. reflexivity. Qed.

Lemma new_holds p w :
  Converter.holds p w →
  Converter.new p = ({| Converter.rate_manager := Some 0%nat |}, p).
Proof.
  intros [Hc Hp]. unfold Converter.new, Singleton.get_instance.
  rewrite Hc. simpl. destruct p. simpl in *. by subst.
Qed.

Lemma new_many_holds k p w :
  Converter.holds p w →
  Converter.new_many k p
  = (replicate k {| Converter.rate_manager := Some 0%nat |}, p).
Proof.
  intros Hp. induction k as [|k IH]; [done|].
  cbn [Converter.new_many]. by rewrite (new_holds _ _ Hp), IH.
Qed.

Lemma convert_holds o x a b p w y w' :
  Converter.holds p w → convert o w x a b = Some (y, w') →
  ∃ p', Converter.convert o {| Converter.rate_manager := Some 0%nat |} x a b p
        = Some (y, p')
        ∧ Converter.holds p' w'.
Proof.
  intros [Hc Hp] Hconv. unfold Converter.convert. simpl. rewrite Hc, Hp. simpl.
  unfold convert in Hconv.
  replace {| mgr := mgr w; stdout := stdout w |} with w by by destruct w.
  destruct (get_rate o w a b) as [[rate w1]|]; [|done]. simpl in *.
  injection Hconv as <- <-. eexists. split; [done|]. by split.
Qed.

End ConverterFacts.

(** X10. However many converters are created, they all refer to one and the
    same manager, which the first creation builds. *)
Theorem converters_share_one_manager k :
  ∃ p, Converter.new_many (S k) Converter.start
       = (replicate (S k) {| Converter.rate_manager := Some 0%nat |}, p)
    ∧ Singleton.heap (Converter.classes p) = [__init__]
    ∧ Singleton._instance (Converter.classes p) = Some 0%nat.
Proof.
  eexists. split.
  { cbn [Converter.new_many]. rewrite ConverterFacts.new_start.
    by rewrite (ConverterFacts.new_many_holds k _ initial_world). }
  split; reflexivity.
Qed.

(** X11. What one converter fetched the other one sees: after a conversion
    through a first converter has refreshed the table, the same conversion
    through a second converter, within the interval, prints no second
    refresh line and returns the same amount. *)
Theorem converters_see_the_same_table o1 o2 x a b :
  in_range (uniform o1) → 3600 < time_check o1 →
  time_check o2 - time_stamp o1 <= 3600 →
  ∃ c1 c2 p y p1,
    Converter.new_many 2 Converter.start = ([c1; c2], p)
    ∧ Converter.convert o1 c1 x a b p = Some (y, p1)
    ∧ Converter.convert o2 c2 x a b p1 = Some (y, p1)
    ∧ Converter.printed p = []
    ∧ Converter.printed p1 = [updating_line].
Proof.
  intros Hu Hstale Hfresh.
  assert (stale (time_check o1) (mgr initial_world) = true) as Hs1.
  { apply stale_spec. simpl. lra. }
  assert (stale (time_check o2) (mgr (refreshed o1 initial_world)) = false)
    as Hs2.
  { apply fresh_spec. simpl. lra. }
  pose proof (convert_result o1 initial_world x a b Hu) as H1.
  unfold after_check in H1. rewrite Hs1 in H1.
  pose proof (convert_fresh o2 _ x a b Hs2) as H2.
  assert (Converter.holds
            {| Converter.classes :=
                 {| Singleton._instance := Some 0%nat;
                    Singleton._lock := None;
                    Singleton.heap := [__init__] |};
               Converter.printed := [] |} initial_world) as Hholds by done.
  destruct (ConverterFacts.convert_holds _ _ _ _ _ _ _ _ Hholds H1)
    as (p1 & Hc1 & Hholds1).
  destruct (ConverterFacts.convert_holds _ _ _ _ _ _ _ _ Hholds1 H2)
    as (p2 & Hc2 & Hholds2).
  assert (p2 = p1) as ->.
  { destruct Hholds1 as [? ?], Hholds2 as [? ?], p1, p2. simpl in *. congruence. }
  eexists _, _, _, _, p1. split; [reflexivity|].
  split; [exact Hc1|]. split; [exact Hc2|]. split; [done|].
  by destruct Hholds1 as [_ ->].
Qed.

Lemma converters_see_the_same_table_witness :
  ∃ c1 c2 p y p1,
    Converter.new_many 2 Converter.start = ([c1; c2], p)
    ∧ Converter.convert o0 c1 1000 "USD" "EUR" p = Some (y, p1)
    ∧ Converter.convert o1 c2 1000 "USD" "EUR" p1 = Some (y, p1)
    ∧ Converter.printed p = []
    ∧ Converter.printed p1 = [updating_line].
Proof.
  apply (converters_see_the_same_table o0 o1 1000 "USD" "EUR").
  - apply o0_in_range.
  - reflexivity.
  - discriminate.
Defined.

(** ** Overlapping calls of [get_rate] *)

Module CallersFacts.
Import Threads Callers.

Lemma sound_mono m m' t :
  (∀ k, is_Some (m !! k) → is_Some (m' !! k)) → sound m t → sound m' t.
Proof.
  intros Hsub [Hu Hpc]. split; [done|].
  destruct (t_pc t); try done.
  destruct Hpc as (item & Hi & Hin). eauto.
Qed.

Lemma sound_at_pc m t p :
  in_range (uniform (t_oracle t)) →
  match p with
  | Raised => False
  | AtReverse i => ∃ item, base_rates !! i = Some item ∧ is_Some (m !! item.1)
  | Returned r => 0 < r
  | _ => True
  end → sound m (at_pc p t).
Proof. intros Hu Hp. by split. Qed.

Lemma loop_head_sound m t i :
  in_range (uniform (t_oracle t)) → sound m (at_pc (loop_head i) t).
Proof.
  intros Hu. apply sound_at_pc; [done|]. unfold loop_head.
  by destruct (base_rates !! i).
Qed.

(** One step of a sound thread on a positive table. *)
Lemma step_safe t w :
  map_Forall (λ _ r, 0 < r) (_rates (mgr w)) → sound (_rates (mgr w)) t →
  map_Forall (λ _ r, 0 < r) (_rates (mgr (step t w).2))
  ∧ sound (_rates (mgr (step t w).2)) (at_pc (step t w).1 t)
  ∧ ∀ k, is_Some (_rates (mgr w) !! k) →
         is_Some (_rates (mgr (step t w).2) !! k).
Proof.
  intros Hpos [Hu Hpc]. unfold step.
  destruct (t_pc t) as [| |i|i| | |r|] eqn:Ht; cbn [fst snd].
  - split; [done|]. split; [|done].
    apply sound_at_pc; [done|]. by destruct (stale _ _).
  - split; [done|]. split; [|done]. by apply loop_head_sound.
  - destruct (base_rates !! i) as [item|] eqn:Hi; cbn [fst snd].
    + destruct (base_rates_positive _ _ Hi) as [Hrate _].
      destruct (fluctuated_bounds _ i _ Hu Hrate) as (_ & _ & Hv).
      cbn [with_mgr mgr store_forward set_rate _rates].
      split; [by apply map_Forall_insert_2|]. split.
      * apply sound_at_pc; [done|]. exists item. split; [done|].
        rewrite lookup_insert_eq. by eexists.
      * intros k Hk. rewrite lookup_insert. by case_decide.
    + split; [done|]. split; [|done]. by apply sound_at_pc.
  - destruct Hpc as (item & Hi & [v Hv]). rewrite Hi.
    destruct (base_rates_positive _ _ Hi) as [_ [rp Hrp]].
    pose proof (map_Forall_lookup_1 _ _ _ _ Hpos Hv) as Hvpos. simpl in Hvpos.
    unfold store_reverse. rewrite Hrp, Hv. simpl.
    rewrite truediv_nonzero by lra. simpl.
    split; [|split].
    + apply map_Forall_insert_2; [|done].
      unfold Qdiv. rewrite Qmult_1_l. by apply Qinv_lt_0_compat.
    + by apply loop_head_sound.
    + intros k Hk. rewrite lookup_insert. by case_decide.
  - split; [done|]. split; [|done]. by apply sound_at_pc.
  - split; [done|]. split; [|done]. apply sound_at_pc; [done|].
    unfold Py.get. destruct (_ !! _) as [r|] eqn:Hr; simpl; [|done].
    by apply (map_Forall_lookup_1 _ _ _ _ Hpos Hr).
  - split; [done|]. split; [|done]. by apply sound_at_pc.
  - done.
Qed.

Lemma safe_step sys tid : safe sys → safe (sched_step sys tid).
Proof.
  intros [Hpos Hall]. unfold sched_step.
  destruct (threads sys !! tid) as [t|] eqn:Ht; [|done].
  pose proof (Forall_lookup_1 _ _ _ _ Hall Ht) as Hsound.
  destruct (step_safe t (shared sys) Hpos Hsound) as (Hpos' & Hsound' & Hsub).
  destruct (step t (shared sys)) as [p w']. cbn [fst snd] in *.
  split; [done|]. unfold table. cbn [shared threads].
  apply Forall_insert; [|done].
  eapply Forall_impl; [exact Hall|]. intros t'. by apply sound_mono.
Qed.

Lemma safe_run sched sys : safe sys → safe (run sched sys).
Proof.
  revert sys. induction sched as [|tid sched IH]; intros sys H; [done|].
  apply IH. by apply safe_step.
Qed.

Lemma safe_spawn w calls :
  map_Forall (λ _ r, 0 < r) (_rates (mgr w)) →
  Forall (λ c, in_range (uniform c.1)) calls →
  safe (spawn w calls).
Proof.
  intros Hpos Hcalls. split; [done|]. unfold spawn. cbn [threads].
  apply Forall_fmap. eapply Forall_impl; [exact Hcalls|].
  intros c Hc. by split.
Qed.

Lemma step_rank t w : (rank (step t w).1 ≤ rank (t_pc t) - 1)%nat.
Proof.
  unfold step. destruct (t_pc t) as [| |i|i| | |r|]; cbn [fst snd rank];
    try lia.
  - destruct (stale _ _); simpl; lia.
  - unfold loop_head. simpl. lia.
  - destruct (base_rates !! i) as [item|] eqn:Hi; cbn [fst rank]; [|lia].
    apply lookup_lt_Some in Hi. simpl in Hi. lia.
  - destruct (base_rates !! i) as [item|] eqn:Hi; cbn [fst rank]; [|lia].
    apply lookup_lt_Some in Hi. simpl in Hi.
    destruct (store_reverse _ _); cbn [fst rank]; [|lia].
    unfold loop_head. destruct (base_rates !! S i) eqn:Hsi; cbn [rank]; [|lia].
    apply lookup_lt_Some in Hsi. simpl in Hsi. lia.
Qed.

(** The program counter of a thread only moves when it is scheduled, and
    then towards the end. *)
Lemma rank_run tid sched sys t :
  threads sys !! tid = Some t →
  ∃ t', threads (run sched sys) !! tid = Some t'
        ∧ (rank (t_pc t') ≤ rank (t_pc t) - turns tid sched)%nat.
Proof.
  revert sys t. induction sched as [|i sched IH]; intros sys t Ht.
  { exists t. split; [done|]. unfold turns. simpl. lia. }
  cbn [run foldl]. fold (run sched (sched_step sys i)).
  assert (tid < length (threads sys))%nat as Hlt by by eapply lookup_lt_Some.
  destruct (decide (i = tid)) as [->|Hne].
  - destruct (IH (sched_step sys tid) (at_pc (step t (shared sys)).1 t))
      as (t' & Ht' & Hrank).
    { unfold sched_step. rewrite Ht. destruct (step _ _). simpl.
      by rewrite list_lookup_insert_eq. }
    exists t'. split; [done|].
    pose proof (step_rank t (shared sys)).
    unfold turns in *. rewrite filter_cons_True by done.
    simpl in *. lia.
  - destruct (IH (sched_step sys i) t) as (t' & Ht' & Hrank).
    { unfold sched_step. destruct (threads sys !! i); [|done].
      destruct (step _ _). simpl. by rewrite list_lookup_insert_ne. }
    exists t'. split; [done|].
    unfold turns in *. by rewrite filter_cons_False.
Qed.

End CallersFacts.

(** X12. Threads calling [get_rate] without any lock never raise: under
    every schedule no thread has raised, every rate in the table is
    positive and every rate returned is positive. *)
Theorem overlapping_calls_never_raise w calls sched :
  map_Forall (λ _ r, 0 < r) (_rates (mgr w)) →
  Forall (λ c, in_range (uniform c.1)) calls →
  let sys := Threads.run sched (Callers.spawn w calls) in
  Forall (λ t, Threads.t_pc t ≠ Threads.Raised) (Threads.threads sys)
  ∧ map_Forall (λ _ r, 0 < r) (Threads.table sys)
  ∧ Forall (λ r, 0 < r) (Threads.results sys).
Proof.
  intros Hpos Hcalls sys.
  assert (Callers.safe sys) as [Htable Hall]
    by by apply CallersFacts.safe_run, CallersFacts.safe_spawn.
  split; [|split; [done|]].
  - eapply Forall_impl; [exact Hall|]. intros t [_ Hpc] Hraised.
    by rewrite Hraised in Hpc.
  - apply Forall_forall. intros r Hr.
    apply list_elem_of_omap in Hr as (t & Ht & Hret).
    rewrite Forall_forall in Hall. destruct (Hall _ Ht) as [_ Hpc].
    destruct (Threads.t_pc t); try done. by injection Hret as <-.
Qed.

Lemma overlapping_calls_never_raise_witness :
  let sys := Threads.run both_check_first
               (Callers.spawn initial_world
                  [(o0, ("USD", "EUR")); (o0, ("USD", "EUR"))]) in
  Forall (λ t, Threads.t_pc t ≠ Threads.Raised) (Threads.threads sys)
  ∧ map_Forall (λ _ r, 0 < r) (Threads.table sys)
  ∧ Forall (λ r, 0 < r) (Threads.results sys).
Proof.
  apply (overlapping_calls_never_raise initial_world
           [(o0, ("USD", "EUR")); (o0, ("USD", "EUR"))] both_check_first).
  - apply map_Forall_empty.
  - repeat constructor; apply o0_in_range.
Defined.

(** X13. A call of [get_rate] never waits for another: once the schedule
    has let a thread take sixteen steps, that thread has returned a
    positive rate, whatever the other threads did in between. *)
Theorem get_rate_returns_within_16_steps w calls sched tid c :
  map_Forall (λ _ r, 0 < r) (_rates (mgr w)) →
  Forall (λ c, in_range (uniform c.1)) calls →
  calls !! tid = Some c → (16 ≤ Callers.turns tid sched)%nat →
  ∃ t r, Threads.threads (Threads.run sched (Callers.spawn w calls)) !! tid
         = Some t
    ∧ Threads.t_pc t = Threads.Returned r ∧ 0 < r.
Proof.
  intros Hpos Hcalls Hc Hturns.
  destruct (CallersFacts.rank_run tid sched (Callers.spawn w calls)
              (Threads.call c.1 c.2.1 c.2.2)) as (t & Ht & Hrank).
  { unfold Callers.spawn. cbn [Threads.threads].
    by rewrite list_lookup_fmap, Hc. }
  assert (Callers.safe (Threads.run sched (Callers.spawn w calls)))
    as [_ Hall] by by apply CallersFacts.safe_run, CallersFacts.safe_spawn.
  destruct (Forall_lookup_1 _ _ _ _ Hall Ht) as [_ Hpc].
  simpl in Hrank.
  destruct (Threads.t_pc t) as [| |i|i| | |r|] eqn:Hp; simpl in Hrank;
    try lia; try done.
  by exists t, r.
Qed.

Lemma get_rate_returns_within_16_steps_witness :
  ∃ t r, Threads.threads
           (Threads.run both_check_first
              (Callers.spawn initial_world
                 [(o0, ("USD", "EUR")); (o0, ("USD", "EUR"))])) !! 0%nat
         = Some t
    ∧ Threads.t_pc t = Threads.Returned r ∧ 0 < r.
Proof.
  apply (get_rate_returns_within_16_steps initial_world
           [(o0, ("USD", "EUR")); (o0, ("USD", "EUR"))] both_check_first
           0 (o0, ("USD", "EUR"))).
  - apply map_Forall_empty.
  - repeat constructor; apply o0_in_range.
  - reflexivity.
  - vm_compute. lia.
Defined.

(** ** More on [get_instance] *)

(** X15. The lock of [get_instance] excludes: under every schedule at most
    one thread is between taking the lock and releasing it. *)
Theorem one_thread_in_critical_section n sched t1 t2 p1 p2 :
  Singleton.threads (Singleton.run sched (Singleton.spawn n)) !! t1 = Some p1 →
  Singleton.threads (Singleton.run sched (Singleton.spawn n)) !! t2 = Some p2 →
  Singleton.critical p1 = true → Singleton.critical p2 = true →
  t1 = t2
  ∧ Singleton._lock (Singleton.cls (Singleton.run sched (Singleton.spawn n)))
    = Some t1.
Proof.
  intros H1 H2 Hc1 Hc2.
  assert (Singleton.inv (Singleton.run sched (Singleton.spawn n))) as Hinv
    by apply SingletonFacts.inv_run, SingletonFacts.inv_spawn.
  pose proof (Singleton.inv_threads _ Hinv _ _ H1) as Hok1.
  pose proof (Singleton.inv_threads _ Hinv _ _ H2) as Hok2.
  assert (Singleton._lock
            (Singleton.cls (Singleton.run sched (Singleton.spawn n)))
          = Some t1) as Hl1
    by (destruct p1; simpl in *; try done; by destruct_and?).
  assert (Singleton._lock
            (Singleton.cls (Singleton.run sched (Singleton.spawn n)))
          = Some t2) as Hl2
    by (destruct p2; simpl in *; try done; by destruct_and?).
  split; congruence.
Qed.

Lemma one_thread_in_critical_section_witness :
  0%nat = 0%nat
  ∧ Singleton._lock
      (Singleton.cls (Singleton.run [0; 0; 0]%nat (Singleton.spawn 2)))
    = Some 0%nat.
Proof.
  apply (one_thread_in_critical_section 2 [0; 0; 0]%nat 0 0
           Singleton.Construct Singleton.Construct); reflexivity.
Defined.

(** X16. Once the instance is published a caller does not touch the lock:
    in two steps of its own it returns the instance and leaves the class
    attributes as they are, also while another thread still holds the
    lock. *)
Theorem published_instance_needs_no_lock n sched tid :
  let sys := Singleton.run sched (Singleton.spawn n) in
  is_Some (Singleton._instance (Singleton.cls sys)) →
  Singleton.threads sys !! tid = Some Singleton.Check1 →
  let sys' := Singleton.run [tid; tid] sys in
  Singleton.cls sys' = Singleton.cls sys
  ∧ Singleton.threads sys' !! tid = Some (Singleton.Done (Some 0%nat)).
Proof.
  intros sys [r Hr] Ht sys'.
  assert (Singleton.inv sys) as Hinv
    by apply SingletonFacts.inv_run, SingletonFacts.inv_spawn.
  assert (Singleton._instance (Singleton.cls sys) = Some 0%nat) as Hzero.
  { destruct (Singleton.inv_slot _ Hinv) as [?|[? _]]; [congruence|done]. }
  assert (tid < length (Singleton.threads sys))%nat as Hlt
    by by eapply lookup_lt_Some.
  unfold sys'. cbn [Singleton.run foldl].
  rewrite (SingletonFacts.sched_step_at _ _ _ Ht). simpl. rewrite Hzero.
  unfold Singleton.sched_step. cbn [Singleton.threads Singleton.cls].
  rewrite list_lookup_insert_eq by done. simpl. rewrite Hzero.
  split; [done|]. apply list_lookup_insert_eq. by rewrite length_insert.
Qed.

Lemma published_instance_needs_no_lock_witness :
  let sys := Singleton.run [0; 0; 0; 0; 0]%nat (Singleton.spawn 2) in
  let sys' := Singleton.run [1; 1]%nat sys in
  Singleton._lock (Singleton.cls sys) = Some 0%nat
  ∧ Singleton.cls sys' = Singleton.cls sys
  ∧ Singleton.threads sys' !! 1%nat = Some (Singleton.Done (Some 0%nat)).
Proof.
  split; [reflexivity|].
  apply (published_instance_needs_no_lock 2 [0; 0; 0; 0; 0]%nat 1).
  - by eexists.
  - reflexivity.
Defined.

(** X17. The constructor itself is not guarded: whatever [get_instance] has
    published, calling [ExchangeRateManager()] directly builds one more
    object, different from the published one, and leaves the slot alone. *)
Theorem constructor_is_not_guarded n sched r :
  let c := Singleton.cls (Singleton.run sched (Singleton.spawn n)) in
  Singleton._instance c = Some r →
  (Singleton.construct c).1 ≠ r
  ∧ Singleton._instance (Singleton.construct c).2 = Some r
  ∧ length (Singleton.heap (Singleton.construct c).2) = 2%nat
  ∧ Singleton.heap (Singleton.construct c).2 !! (Singleton.construct c).1
    = Some __init__.
Proof.
  intros c Hr.
  assert (Singleton.inv (Singleton.run sched (Singleton.spawn n))) as Hinv
    by apply SingletonFacts.inv_run, SingletonFacts.inv_spawn.
  destruct (Singleton.inv_slot _ Hinv) as [Hnone|[Hsome Hlen]];
    fold c in Hnone || fold c in Hsome, Hlen; [congruence|].
  assert (r = 0%nat) as -> by congruence.
  unfold Singleton.construct. cbn [fst snd Singleton._instance Singleton.heap].
  rewrite Hlen, length_app, Hlen. simpl.
  split; [done|]. split; [done|]. split; [done|].
  rewrite lookup_app_r by lia. by rewrite Hlen.
Qed.

Lemma constructor_is_not_guarded_witness :
  let c := Singleton.cls
             (Singleton.run [0; 0; 0; 0; 0; 0; 0]%nat (Singleton.spawn 1)) in
  (Singleton.construct c).1 ≠ 0%nat
  ∧ Singleton._instance (Singleton.construct c).2 = Some 0%nat
  ∧ length (Singleton.heap (Singleton.construct c).2) = 2%nat
  ∧ Singleton.heap (Singleton.construct c).2 !! (Singleton.construct c).1
    = Some __init__.
Proof.
  apply (constructor_is_not_guarded 1 [0; 0; 0; 0; 0; 0; 0]%nat 0).
  reflexivity.
Defined.

Module BandFacts.
Import Threads Callers Band.

(** A key has one role: forward key of one base pair, or reverse key. *)
Lemma forward_key_role i j item item' :
  base_rates !! i = Some item → base_rates !! j = Some item' →
  (item'.1 = item.1 → item' = item) ∧ reverse_pair item'.1 ≠ Some item.1.
Proof.
  intros Hi Hj.
  do 6 (destruct i as [|i]; [injection Hi as <-;
    do 6 (destruct j as [|j]; [injection Hj as <-; by split|]); done|]).
  done.
Qed.

Lemma reverse_key_role i j item item' rp :
  base_rates !! i = Some item → base_rates !! j = Some item' →
  reverse_pair item.1 = Some rp →
  (reverse_pair item'.1 = Some rp → item' = item) ∧ item'.1 ≠ rp.
Proof.
  intros Hi Hj.
  do 6 (destruct i as [|i]; [injection Hi as <-;
    do 6 (destruct j as [|j];
          [injection Hj as <-; intros [= <-]; split; [|done];
           intros Heq; vm_compute in Heq; congruence|]); done|]).
  done.
Qed.

Lemma in_band_forward m i item v :
  in_band m → base_rates !! i = Some item → m !! item.1 = Some v →
  item.2 * 0.98 <= v ∧ v <= item.2 * 1.02.
Proof.
  intros Hm Hi Hv. destruct (Hm _ _ Hv) as (j & item' & Hj & H).
  destruct (forward_key_role _ _ _ _ Hi Hj) as [Hsame Hrev].
  destruct H as [(Hk & Hb)|(Hk & _)]; [|done].
  by rewrite <-(Hsame (eq_sym Hk)).
Qed.

Lemma in_band_reverse m i item rp v :
  in_band m → base_rates !! i = Some item → reverse_pair item.1 = Some rp →
  m !! rp = Some v →
  1 / (item.2 * 1.02) <= v ∧ v <= 1 / (item.2 * 0.98).
Proof.
  intros Hm Hi Hrp Hv. destruct (Hm _ _ Hv) as (j & item' & Hj & H).
  destruct (reverse_key_role _ _ _ _ _ Hi Hj Hrp) as [Hsame Hfwd].
  destruct H as [(Hk & _)|(Hk & Hb)]; [by symmetry in Hk|].
  by rewrite <-(Hsame Hk).
Qed.

Lemma in_band_positive m : in_band m → map_Forall (λ _ r, 0 < r) m.
Proof.
  intros Hm k v Hv. destruct (Hm _ _ Hv) as (i & item & Hi & H).
  destruct (base_rates_positive _ _ Hi) as [Hpos _].
  destruct H as [(_ & Hlo & _)|(_ & Hlo & _)]; simpl.
  - eapply Qlt_le_trans; [|exact Hlo].
    apply Qmult_lt_0_compat; [done|reflexivity].
  - eapply Qlt_le_trans; [|exact Hlo].
    unfold Qdiv. rewrite Qmult_1_l. apply Qinv_lt_0_compat.
    apply Qmult_lt_0_compat; [done|reflexivity].
Qed.

Lemma in_band_insert m k v :
  in_band m →
  (∃ i item, base_rates !! i = Some item ∧
      ((k = item.1 ∧ item.2 * 0.98 <= v ∧ v <= item.2 * 1.02)
       ∨ (reverse_pair item.1 = Some k
          ∧ 1 / (item.2 * 1.02) <= v ∧ v <= 1 / (item.2 * 0.98)))) →
  in_band (<[k := v]> m).
Proof.
  intros Hm Hkv k' v'. rewrite lookup_insert. case_decide as Hk.
  - intros [= <-]. by subst.
  - apply Hm.
Qed.

Lemma snapshot_in_band u : in_range u → in_band (snapshot u).
Proof.
  intros Hu k v H.
  apply snapshot_lookup, elem_of_writes in H as (i & item & Hi & H).
  destruct (base_rates_positive _ _ Hi) as [Hpos _].
  destruct (fluctuated_bounds _ i _ Hu Hpos) as (Hlo & Hhi & Hv).
  exists i, item. split; [done|]. destruct H as [[-> ->]|[Hk ->]].
  - left. done.
  - right. split; [done|]. split; apply reciprocal_antitone; try done.
    apply Qmult_lt_0_compat; [done|reflexivity].
Qed.

Lemma reachable_in_band w : reachable w → in_band (_rates (mgr w)).
Proof.
  intros Hw. destruct (reachable_single_generation _ Hw) as [->|(u & Hu & ->)].
  - by intros ??.
  - by apply snapshot_in_band.
Qed.

Lemma step_in_band t w :
  in_band (_rates (mgr w)) → sound (_rates (mgr w)) t →
  in_band (_rates (mgr (step t w).2)).
Proof.
  intros Hm [Hu Hpc]. unfold step.
  destruct (t_pc t) as [| |i|i| | |r|] eqn:Ht; cbn [fst snd]; try done.
  - destruct (base_rates !! i) as [item|] eqn:Hi; cbn [fst snd]; [|done].
    destruct (base_rates_positive _ _ Hi) as [Hrate _].
    destruct (fluctuated_bounds _ i _ Hu Hrate) as (Hlo & Hhi & _).
    cbn [with_mgr mgr store_forward set_rate _rates].
    apply in_band_insert; [done|]. exists i, item. split; [done|]. by left.
  - destruct Hpc as (item & Hi & [v Hv]). rewrite Hi.
    destruct (base_rates_positive _ _ Hi) as [Hrate [rp Hrp]].
    destruct (in_band_forward _ _ _ _ Hm Hi Hv) as [Hlo Hhi].
    assert (0 < item.2 * 0.98) as Hpos
      by (apply Qmult_lt_0_compat; [done|reflexivity]).
    unfold store_reverse. rewrite Hrp, Hv. simpl.
    rewrite truediv_nonzero by lra. simpl.
    apply in_band_insert; [done|]. exists i, item. split; [done|]. right.
    split; [done|]. split; apply reciprocal_antitone; try done. lra.
Qed.

Lemma in_band_run sched sys :
  in_band (table sys) → safe sys → in_band (table (run sched sys)).
Proof.
  revert sys. induction sched as [|tid sched IH]; intros sys Hm Hsafe; [done|].
  apply IH; [|by apply CallersFacts.safe_step].
  unfold sched_step. destruct (threads sys !! tid) as [t|] eqn:Ht; [|done].
  destruct Hsafe as [_ Hall].
  pose proof (Forall_lookup_1 _ _ _ _ Hall Ht) as Hsound.
  pose proof (step_in_band t (shared sys) Hm Hsound) as Hm'.
  by destruct (step t (shared sys)).
Qed.

End BandFacts.

(** X14. In exact arithmetic (binary64 rounding set aside), also in the
    middle of overlapping refreshes every entry of the table stays in its
    band: a forward rate within 2% of its base rate, a reverse rate
    between the reciprocals of the two ends of that band. A reader may see
    rates of different generations, never a rate that no single refresh
    could have stored. *)
Theorem overlapping_refreshes_stay_in_band w calls sched i item :
  reachable w → Forall (λ c, in_range (uniform c.1)) calls →
  base_rates !! i = Some item →
  let m := Threads.table (Threads.run sched (Callers.spawn w calls)) in
  (∀ v, m !! item.1 = Some v → item.2 * 0.98 <= v ∧ v <= item.2 * 1.02)
  ∧ (∀ rp v, reverse_pair item.1 = Some rp → m !! rp = Some v →
       1 / (item.2 * 1.02) <= v ∧ v <= 1 / (item.2 * 0.98)).
Proof.
  intros Hw Hcalls Hi m.
  assert (Band.in_band m) as Hm.
  { apply BandFacts.in_band_run; [by apply BandFacts.reachable_in_band|].
    apply CallersFacts.safe_spawn; [|done].
    by apply BandFacts.in_band_positive, BandFacts.reachable_in_band. }
  split.
  - intros v Hv. by eapply BandFacts.in_band_forward.
  - intros rp v Hrp Hv. by eapply BandFacts.in_band_reverse.
Qed.

Lemma overlapping_refreshes_stay_in_band_witness :
  ∃ new old,
    Threads.table torn !! "USD_EUR" = Some new
    ∧ Threads.table torn !! "EUR_USD" = Some old
    ∧ (0.85 * 0.98 <= new ∧ new <= 0.85 * 1.02)
    ∧ (1 / (0.85 * 1.02) <= old ∧ old <= 1 / (0.85 * 0.98)).
Proof.
  destruct (overlapping_refreshes_stay_in_band world_gen1
              [(o_reader, ("EUR", "USD")); (o_writer, ("USD", "EUR"))]
              [0; 1; 1; 1; 0]%nat 0 ("USD_EUR", 0.85)) as [Hfwd Hrev].
  - apply (reach_call o0 initial_world "USD" "EUR"
             (Py.get (_rates (mgr (refreshed o0 initial_world)))
                     (pair_key "USD" "EUR") 1.0)).
    + apply reach_init.
    + apply o0_in_range.
    + apply (get_rate_result o0 initial_world "USD" "EUR" o0_in_range).
  - constructor; [intros n; simpl; lra|].
    constructor; [intros n; simpl; lra|]. constructor.
  - reflexivity.
  - exists (8670 # 10000), (100 # 85).
    assert (Threads.table torn !! "USD_EUR" = Some (8670 # 10000)) as H1
      by (vm_compute; reflexivity).
    assert (Threads.table torn !! "EUR_USD" = Some (100 # 85)) as H2
      by (vm_compute; reflexivity).
    split; [exact H1|]. split; [exact H2|]. split.
    + apply Hfwd. exact H1.
    + apply (Hrev "EUR_USD"); [reflexivity|exact H2].
Defined.
